(** * Usage fetcher: parser, fetch state machine and display projection

    A shallow embedding of [claude-usage@local/usage_fetcher.py]:
    the [UsageFetcher] class (fields, [_notify_update], [_do_fetch],
    [_parse_output]) and the module-level [get_display_values].

    Modelling conventions.
    - A Python [str] is a [string]; every [ascii] stands for one code point
      below 256.  Whitespace is what [str.isspace] accepts in that range.
    - A Python [dict] with [str] keys is a [gmap string string]; the code
      only assigns by key, copies, reads with [get] and takes [len].
    - The mutable object [self] is threaded through a state-and-exception
      monad [M]; [try]/[except] is [try_except].
    - [datetime.now()] reads an oracle [clock] at a tick counter.
    - [subprocess.run] is an oracle too: the caller supplies its outcome.
    - The listener [on_update] is a sink: the model records every call it
      receives (and whether it went through the main-thread scheduler) and
      the listener itself raises nothing. *)

From Stdlib Require Import Ascii DecimalString.
From stdpp Require Import gmap strings list fin_maps.

Local Open Scope Z_scope.

(** ** Python [str] primitives *)

Definition nl : ascii := ascii_of_nat 10.
Definition sp : ascii := ascii_of_nat 32.
Definition eq_sign : ascii := ascii_of_nat 61.
Definition hash : ascii := ascii_of_nat 35.

(** [str.isspace] on one character (code points 9-13, 28-32, 133, 160). *)
Definition isspace (c : ascii) : bool :=
  let n := N_of_ascii c in
  ((9 <=? n)%N && (n <=? 13)%N) || ((28 <=? n)%N && (n <=? 32)%N)
  || (n =? 133)%N || (n =? 160)%N.

Fixpoint str_lstrip (s : string) : string :=
  match s with
  | EmptyString => EmptyString
  | String c s' => if isspace c then str_lstrip s' else s
  end.

Fixpoint str_rstrip (s : string) : string :=
  match s with
  | EmptyString => EmptyString
  | String c s' =>
      match str_rstrip s' with
      | EmptyString => if isspace c then EmptyString else String c EmptyString
      | r => String c r
      end
  end.

(** [s.strip()] *)
Definition str_strip (s : string) : string := str_rstrip (str_lstrip s).

(** [c in s] for a one-character [c]. *)
Fixpoint str_contains (c : ascii) (s : string) : bool :=
  match s with
  | EmptyString => false
  | String a s' => if Ascii.eqb a c then true else str_contains c s'
  end.

(** [s.startswith(c)] for a one-character [c]. *)
Definition str_startswith (c : ascii) (s : string) : bool :=
  match s with
  | EmptyString => false
  | String a _ => Ascii.eqb a c
  end.

(** [s.split(sep)] for a one-character [sep]: never the empty list. *)
Fixpoint str_split (sep : ascii) (s : string) : list string :=
  match s with
  | EmptyString => [EmptyString]
  | String a s' =>
      if Ascii.eqb a sep then EmptyString :: str_split sep s'
      else match str_split sep s' with
           | h :: t => String a h :: t
           | [] => [String a EmptyString]
           end
  end.

(** The text before and after the first [sep], when there is one. *)
Fixpoint str_cut (sep : ascii) (s : string) : option (string * string) :=
  match s with
  | EmptyString => None
  | String a s' =>
      if Ascii.eqb a sep then Some (EmptyString, s')
      else match str_cut sep s' with
           | Some (k, v) => Some (String a k, v)
           | None => None
           end
  end.

(** [s.split(sep, 1)] *)
Definition str_split1 (sep : ascii) (s : string) : list string :=
  match str_cut sep s with
  | Some (k, v) => [k; v]
  | None => [s]
  end.

(** [s.replace(old, new)] for one-character [old] and [new]. *)
Fixpoint str_replace (old new : ascii) (s : string) : string :=
  match s with
  | EmptyString => EmptyString
  | String a s' =>
      String (if Ascii.eqb a old then new else a) (str_replace old new s')
  end.

(** [s[:n]] *)
Fixpoint str_take (n : nat) (s : string) : string :=
  match n, s with
  | S n', String a s' => String a (str_take n' s')
  | _, _ => EmptyString
  end.

(** [str(i)] for an [int]. *)
Definition str_of_int (z : Z) : string := NilZero.string_of_int (Z.to_int z).

(** ** Exceptions and results *)

(** An exception object: [subprocess.TimeoutExpired], or any other
    [Exception] with its class name; each carries what [str(e)] gives. *)
Inductive exn : Type :=
  | TimeoutExpired (message : string)
  | Exception (type_name message : string).

(** [str(e)] *)
Definition exn_str (e : exn) : string :=
  match e with
  | TimeoutExpired message => message
  | Exception _ message => message
  end.

(** [type(e).__name__] *)
Definition exn_type_name (e : exn) : string :=
  match e with
  | TimeoutExpired _ => "TimeoutExpired"
  | Exception type_name _ => type_name
  end.

Inductive result (A : Type) : Type :=
  | Ok (a : A)
  | Raise (e : exn).
Arguments Ok {A} a.
Arguments Raise {A} e.

(** ** The parsing loop of [_parse_output], lines 115-119 *)

(** One iteration of the [for] body; the tuple unpacking raises
    [ValueError] unless [split] returned exactly two parts. *)
Definition parse_line (data : gmap string string) (line : string)
  : result (gmap string string) :=
  if str_contains eq_sign line && negb (str_startswith hash line) then
    match str_split1 eq_sign line with
    | [key; value] => Ok (<[str_strip key := str_strip value]> data)
    | parts =>
        Raise (Exception "ValueError"
                 (if (length parts <? 2)%nat
                  then "not enough values to unpack (expected 2, got "
                       +:+ str_of_int (Z.of_nat (length parts)) +:+ ")"
                  else "too many values to unpack (expected 2)"))
    end
  else Ok data.

Fixpoint parse_lines (data : gmap string string) (lines : list string)
  : result (gmap string string) :=
  match lines with
  | [] => Ok data
  | line :: rest =>
      match parse_line data line with
      | Ok data' => parse_lines data' rest
      | Raise e => Raise e
      end
  end.

(** [data = {}; for line in output.strip().split('\n'): ...] *)
Definition parse_data (output : string) : result (gmap string string) :=
  parse_lines ∅ (str_split nl (str_strip output)).

(** ** [datetime] and [strftime('%H:%M:%S')] *)

Record datetime : Type := mk_datetime {
  dt_year : nat; dt_month : nat; dt_day : nat;
  dt_hour : nat; dt_minute : nat; dt_second : nat;
  dt_microsecond : nat
}.

(** [%H], [%M] and [%S]: decimal, zero-padded to two digits. *)
Definition pad2 (n : nat) : string :=
  if (n <? 10)%nat then "0" +:+ str_of_int (Z.of_nat n)
  else str_of_int (Z.of_nat n).

Definition strftime_HMS (d : datetime) : string :=
  pad2 (dt_hour d) +:+ ":" +:+ pad2 (dt_minute d) +:+ ":" +:+ pad2 (dt_second d).

(** ** The [UsageFetcher] object *)

(** The instance attributes set by [__init__].  The two callables are
    opaque to the fetcher: only their truthiness is tested, so each is a
    flag saying whether one is registered. *)
Record UsageFetcher : Type := mk_fetcher {
  on_update : bool;
  last_good_data : option (gmap string string);
  last_successful_fetch : option datetime;
  last_error : option string;
  fetch_count : Z;
  is_fetching : bool;
  is_stale : bool;
  _schedule_on_main_thread : bool
}.

(** [UsageFetcher(on_update)] *)
Definition __init__ (listener : bool) : UsageFetcher :=
  {| on_update := listener;
     last_good_data := None;
     last_successful_fetch := None;
     last_error := None;
     fetch_count := 0;
     is_fetching := false;
     is_stale := false;
     _schedule_on_main_thread := false |}.

Definition set_main_thread_scheduler (self : UsageFetcher) : UsageFetcher :=
  {| on_update := on_update self;
     last_good_data := last_good_data self;
     last_successful_fetch := last_successful_fetch self;
     last_error := last_error self;
     fetch_count := fetch_count self;
     is_fetching := is_fetching self;
     is_stale := is_stale self;
     _schedule_on_main_thread := true |}.

(** Attribute assignments [self.x = v]. *)
Definition set_last_good_data (v : option (gmap string string))
  (self : UsageFetcher) : UsageFetcher :=
  mk_fetcher (on_update self) v (last_successful_fetch self) (last_error self)
    (fetch_count self) (is_fetching self) (is_stale self)
    (_schedule_on_main_thread self).

Definition set_last_successful_fetch (v : option datetime)
  (self : UsageFetcher) : UsageFetcher :=
  mk_fetcher (on_update self) (last_good_data self) v (last_error self)
    (fetch_count self) (is_fetching self) (is_stale self)
    (_schedule_on_main_thread self).

Definition set_last_error (v : option string)
  (self : UsageFetcher) : UsageFetcher :=
  mk_fetcher (on_update self) (last_good_data self)
    (last_successful_fetch self) v
    (fetch_count self) (is_fetching self) (is_stale self)
    (_schedule_on_main_thread self).

Definition set_fetch_count (v : Z) (self : UsageFetcher) : UsageFetcher :=
  mk_fetcher (on_update self) (last_good_data self)
    (last_successful_fetch self) (last_error self)
    v (is_fetching self) (is_stale self)
    (_schedule_on_main_thread self).

Definition set_is_fetching (v : bool) (self : UsageFetcher) : UsageFetcher :=
  mk_fetcher (on_update self) (last_good_data self)
    (last_successful_fetch self) (last_error self)
    (fetch_count self) v (is_stale self)
    (_schedule_on_main_thread self).

Definition set_is_stale (v : bool) (self : UsageFetcher) : UsageFetcher :=
  mk_fetcher (on_update self) (last_good_data self)
    (last_successful_fetch self) (last_error self)
    (fetch_count self) (is_fetching self) v
    (_schedule_on_main_thread self).

(** The [state] dict handed to the listener by [_notify_update]. *)
Record Snapshot : Type := mk_snapshot {
  snap_data : option (gmap string string);
  snap_is_stale : bool;
  snap_error : option string;
  snap_status : string;
  snap_fetch_count : Z;
  snap_last_successful_fetch : option datetime;
  snap_is_fetching : bool
}.

(** One call received by the listener. *)
Record Call : Type := mk_call {
  via_scheduler : bool;
  call_state : Snapshot
}.

(** Everything a fetch can read or change: the object, the calls the
    listener has received so far (oldest first), and the number of clock
    readings taken. *)
Record World : Type := mk_world {
  self_ : UsageFetcher;
  calls : list Call;
  ticks : nat
}.

(** ** State-and-exception monad *)

Definition M (A : Type) : Type := World → result A * World.

Definition ret {A} (a : A) : M A := λ w, (Ok a, w).

Definition bind {A B} (m : M A) (k : A → M B) : M B :=
  λ w, match m w with
       | (Ok a, w') => k a w'
       | (Raise e, w') => (Raise e, w')
       end.

Definition raise {A} (e : exn) : M A := λ w, (Raise e, w).

(** [try: body except ... as e: handler e] *)
Definition try_except {A} (body : M A) (handler : exn → M A) : M A :=
  λ w, match body w with
       | (Ok a, w') => (Ok a, w')
       | (Raise e, w') => handler e w'
       end.

Definition lift {A} (r : result A) : M A := λ w, (r, w).

Definition get_self : M UsageFetcher := λ w, (Ok (self_ w), w).

Definition modify_self (f : UsageFetcher → UsageFetcher) : M unit :=
  λ w, (Ok tt, mk_world (f (self_ w)) (calls w) (ticks w)).

Definition record_call (c : Call) : M unit :=
  λ w, (Ok tt, mk_world (self_ w) (calls w ++ [c]) (ticks w)).

#[global] Instance M_ret : MRet M := @ret.
#[global] Instance M_bind : MBind M := λ A B k m, bind m k.

(** [a or b] on optional strings: [None] and the empty string are falsy. *)
Definition or_else (a b : option string) : option string :=
  match a with
  | Some EmptyString | None => b
  | Some _ => a
  end.

(** [data.get(key, default)] *)
Definition dict_get (data : gmap string string) (key default : string)
  : string :=
  match data !! key with
  | Some v => v
  | None => default
  end.

(** The outcome of [subprocess.run(...)]: a [CompletedProcess] or an
    exception ([TimeoutExpired], or any other, e.g. a launch failure). *)
Record CompletedProcess : Type := mk_completed {
  returncode : Z;
  stdout : string;
  stderr : string
}.

Inductive run_outcome : Type :=
  | Completed (p : CompletedProcess)
  | RunRaises (e : exn).

Section Fetcher.

(** [clock n] is what the [n]-th call of [datetime.now()] returns. *)
Variable clock : nat → datetime.

Definition now : M datetime :=
  λ w, (Ok (clock (ticks w)), mk_world (self_ w) (calls w) (S (ticks w))).

(** [_notify_update(status, error=None)], lines 44-62 *)
Definition _notify_update (status : string) (error : option string)
  : M unit :=
  self ← get_self;
  if negb (on_update self) then ret tt
  else
    let state :=
      {| snap_data := last_good_data self;
         snap_is_stale := is_stale self;
         snap_error := or_else error (last_error self);
         snap_status := status;
         snap_fetch_count := fetch_count self;
         snap_last_successful_fetch := last_successful_fetch self;
         snap_is_fetching := is_fetching self |} in
    if _schedule_on_main_thread self
    then record_call (mk_call true state)
    else record_call (mk_call false state).

(** [has_valid_data], lines 121-124 *)
Definition has_valid_data (data : gmap string string) : bool :=
  let session_remaining := dict_get data "SESSION_REMAINING" "??" in
  let weekly_remaining := dict_get data "WEEKLY_REMAINING" "??" in
  negb (String.eqb session_remaining "??")
  && negb (String.eqb weekly_remaining "??").

(** [_parse_output(output, fetch_num)], lines 112-140 *)
Definition _parse_output (output : string) (fetch_num : Z) : M unit :=
  try_except
    (data ← lift (parse_data output);
     if has_valid_data data then
       modify_self (set_last_good_data (Some data));;
       t ← now;
       modify_self (set_last_successful_fetch (Some t));;
       modify_self (set_is_stale false);;
       modify_self (set_last_error None);;
       t' ← now;
       _notify_update
         ("OK (fetch #" +:+ str_of_int fetch_num +:+ ") @ "
          +:+ strftime_HMS t') None
     else
       modify_self (set_last_error
         (Some ("Got ?? values (parsed "
                +:+ str_of_int (Z.of_nat (size data)) +:+ " keys)")));;
       modify_self (set_is_stale true);;
       t ← now;
       self ← get_self;
       _notify_update ("Invalid data @ " +:+ strftime_HMS t)
         (last_error self))
    (λ e,
       modify_self (set_last_error
         (Some ("Parse error: " +:+ exn_str e)));;
       modify_self (set_is_stale true);;
       t ← now;
       self ← get_self;
       _notify_update ("Parse error @ " +:+ strftime_HMS t)
         (last_error self)).

(** [subprocess.run(...)] replayed from the supplied outcome. *)
Definition subprocess_run (r : run_outcome) : M CompletedProcess :=
  match r with
  | Completed p => ret p
  | RunRaises e => raise e
  end.

(** Lines 70-75 of [_do_fetch]: everything before the [try]. *)
Definition _do_fetch_start : M Z :=
  self ← get_self;
  modify_self (set_fetch_count (fetch_count self + 1));;
  modify_self (set_is_fetching true);;
  self ← get_self;
  let fetch_num := fetch_count self in
  start_time ← now;
  _notify_update
    ("Fetching #" +:+ str_of_int fetch_num +:+ " (started "
     +:+ strftime_HMS start_time +:+ ")...") None;;
  ret fetch_num.

(** Lines 77-110 of [_do_fetch]: the [try] statement. *)
Definition _do_fetch_try (fetch_num : Z) (r : run_outcome) : M unit :=
  try_except
    (result ← subprocess_run r;
     modify_self (set_is_fetching false);;
     if negb (returncode result =? 0) then
       let stderr_preview :=
         match stderr result with
         | EmptyString => "no stderr"
         | _ => str_replace nl sp (str_take 100 (stderr result))
         end in
       modify_self (set_last_error
         (Some ("Script exit " +:+ str_of_int (returncode result)
                +:+ ": " +:+ stderr_preview)));;
       modify_self (set_is_stale true);;
       t ← now;
       self ← get_self;
       _notify_update ("Error @ " +:+ strftime_HMS t) (last_error self)
     else
       _parse_output (stdout result) fetch_num)
    (λ e,
       match e with
       | TimeoutExpired _ =>
           modify_self (set_is_fetching false);;
           modify_self (set_last_error (Some "Timeout after 90s"));;
           modify_self (set_is_stale true);;
           t ← now;
           self ← get_self;
           _notify_update ("Timeout @ " +:+ strftime_HMS t)
             (last_error self)
       | Exception _ _ =>
           modify_self (set_is_fetching false);;
           modify_self (set_last_error
             (Some (exn_type_name e +:+ ": " +:+ exn_str e)));;
           modify_self (set_is_stale true);;
           t ← now;
           self ← get_self;
           _notify_update ("Error @ " +:+ strftime_HMS t)
             (last_error self)
       end).

(** [_do_fetch()], lines 68-110 *)
Definition _do_fetch (r : run_outcome) : M unit :=
  fetch_num ← _do_fetch_start;
  _do_fetch_try fetch_num r.

End Fetcher.

(** ** [get_display_values], lines 144-171 *)

Record DisplayValues : Type := mk_display {
  session_remaining : string;
  weekly_remaining : string;
  time_remaining_str : option string;
  confidence : option string;
  session_resets : option string;
  weekly_resets : option string;
  exhausts_before_reset : bool;
  account_email : option string;
  plan_type : option string;
  extra_pct : option string
}.

(** [x == 'true'] for an [x] that is a string or [None]. *)
Definition is_true_str (x : option string) : bool :=
  match x with
  | Some s => String.eqb s "true"
  | None => false
  end.

(** [not data]: [None] and the empty dict are falsy. *)
Definition falsy (data : option (gmap string string)) : bool :=
  match data with
  | None => true
  | Some d => bool_decide (size d = 0%nat)
  end.

Definition display_defaults : DisplayValues :=
  {| session_remaining := "--";
     weekly_remaining := "--";
     time_remaining_str := None;
     confidence := None;
     session_resets := None;
     weekly_resets := None;
     exhausts_before_reset := false;
     account_email := None;
     plan_type := None;
     extra_pct := None |}.

Definition get_display_values (data : option (gmap string string))
  : DisplayValues :=
  if falsy data then display_defaults
  else
    match data with
    | None => display_defaults
    | Some d =>
        {| session_remaining := dict_get d "SESSION_REMAINING" "??";
           weekly_remaining := dict_get d "WEEKLY_REMAINING" "??";
           time_remaining_str := d !! "TIME_REMAINING_STR";
           confidence := d !! "CONFIDENCE";
           session_resets := d !! "SESSION_RESETS";
           weekly_resets := d !! "WEEKLY_RESETS";
           exhausts_before_reset := is_true_str (d !! "EXHAUSTS_BEFORE_RESET");
           account_email := d !! "ACCOUNT_EMAIL";
           plan_type := d !! "PLAN_TYPE";
           extra_pct := d !! "EXTRA_USED" |}
    end.

(** ** Running fetches: worker threads around one shared object

    [fetch_async] starts a thread per call and nothing serialises them.
    A worker runs [_do_fetch_start], blocks in [subprocess.run], and later
    runs the [try] statement with the [fetch_num] it read at the start.
    The two halves are taken as atomic; any number of workers may be
    blocked at once, and they may finish in any order. *)

Record System : Type := mk_system {
  world : World;
  in_flight : list Z          (* [fetch_num] of each blocked worker *)
}.

Inductive event : Type :=
  | Start                                  (* a worker begins [_do_fetch] *)
  | Finish (i : nat) (r : run_outcome)     (* worker [i]'s subprocess call ends *)
  | SetScheduler.                          (* [set_main_thread_scheduler] *)

Definition is_finish (e : event) : bool :=
  match e with
  | Finish _ _ => true
  | _ => false
  end.

Definition initial (listener : bool) : System :=
  mk_system (mk_world (__init__ listener) [] 0) [].

Definition step (clock : nat → datetime) (s : System) (e : event)
  : option System :=
  match e with
  | Start =>
      match _do_fetch_start clock (world s) with
      | (Ok fetch_num, w') => Some (mk_system w' (in_flight s ++ [fetch_num]))
      | (Raise _, w') => Some (mk_system w' (in_flight s))
      end
  | Finish i r =>
      match in_flight s !! i with
      | Some fetch_num =>
          Some (mk_system (_do_fetch_try clock fetch_num r (world s)).2
                  (delete i (in_flight s)))
      | None => None
      end
  | SetScheduler =>
      Some (mk_system
              (mk_world (set_main_thread_scheduler (self_ (world s)))
                 (calls (world s)) (ticks (world s)))
              (in_flight s))
  end.

Fixpoint run (clock : nat → datetime) (s : System) (tr : list event)
  : option System :=
  match tr with
  | [] => Some s
  | e :: tr' =>
      match step clock s e with
      | Some s' => run clock s' tr'
      | None => None
      end
  end.

(** The object after a trace. *)
Definition fetcher (s : System) : UsageFetcher := self_ (world s).

(** Fetch attempts run one after the other, each to completion. *)
Fixpoint do_fetches (clock : nat → datetime) (rs : list run_outcome)
  (w : World) : World :=
  match rs with
  | [] => w
  | r :: rs' => do_fetches clock rs' (_do_fetch clock r w).2
  end.

(** A fetch attempt yields validated data: exit code 0 and both mandatory
    fields parsed with a value other than the sentinel. *)
Definition attempt_succeeds (r : run_outcome) : bool :=
  match r with
  | Completed p =>
      (returncode p =? 0)
      && match parse_data (stdout p) with
         | Ok data => has_valid_data data
         | Raise _ => false
         end
  | RunRaises _ => false
  end.

(** Both mandatory fields are present with a value other than ["??"]. *)
Definition mandatory_fields_known (data : gmap string string) : Prop :=
  ∃ s wk, data !! "SESSION_REMAINING" = Some s ∧ s ≠ "??"
          ∧ data !! "WEEKLY_REMAINING" = Some wk ∧ wk ≠ "??".

(** ** The parser as the specification words it

    Split on newlines; drop a line that is empty, starts with [#] or has
    no [=]; cut every other line at its first [=] and trim both parts;
    a later line overrides an earlier one with the same key. *)

Definition spec_keep (line : string) : bool :=
  negb (String.eqb line EmptyString)
  && negb (str_startswith hash line)
  && str_contains eq_sign line.

Definition spec_entry (line : string) : string * string :=
  match str_cut eq_sign line with
  | Some (k, v) => (str_strip k, str_strip v)
  | None => (str_strip line, EmptyString)
  end.

Definition spec_entries (text : string) : list (string * string) :=
  spec_entry <$> filter (λ line, spec_keep line = true) (str_split nl text).

(** Last value wins: [list_to_map] keeps the first binding of a key, so
    the entries are taken latest first. *)
Definition spec_parse (text : string) : gmap string string :=
  list_to_map (reverse (spec_entries text)).

(** ** Other wordings of the specification, kept for comparison *)

(** The non-zero-exit message as the specification words it: the exit
    code followed by the first 100 characters of stderr. *)
Definition spec_exit_message (p : CompletedProcess) : string :=
  "Script exit " +:+ str_of_int (returncode p) +:+ ": "
  +:+ str_take 100 (stderr p).

(** The projection of a present mapping as the field table words it:
    each field read at its fixed key, ["??"] for a missing percentage,
    nothing for a missing optional string, and the flag set exactly when
    the raw value is ["true"]. *)
Definition spec_project (d : gmap string string) : DisplayValues :=
  {| session_remaining := default "??" (d !! "SESSION_REMAINING");
     weekly_remaining := default "??" (d !! "WEEKLY_REMAINING");
     time_remaining_str := d !! "TIME_REMAINING_STR";
     confidence := d !! "CONFIDENCE";
     session_resets := d !! "SESSION_RESETS";
     weekly_resets := d !! "WEEKLY_RESETS";
     exhausts_before_reset :=
       bool_decide (d !! "EXHAUSTS_BEFORE_RESET" = Some "true");
     account_email := d !! "ACCOUNT_EMAIL";
     plan_type := d !! "PLAN_TYPE";
     extra_pct := d !! "EXTRA_USED" |}.

(** ** Serialising a mapping as [KEY=value] lines *)

Definition serialize_entry (kv : string * string) : string :=
  kv.1 +:+ String eq_sign kv.2.

Fixpoint join_lines (lines : list string) : string :=
  match lines with
  | [] => EmptyString
  | [line] => line
  | line :: rest => line +:+ String nl (join_lines rest)
  end.

(** One line per entry, in the order given; [trailing] says whether the
    last line is terminated by a newline as well. *)
Definition serialize (trailing : bool) (entries : list (string * string))
  : string :=
  join_lines (serialize_entry <$> entries)
  +:+ (if trailing then String nl EmptyString else EmptyString).

(** An entry that survives a round trip through the parser: a key with
    no [=], no newline and no leading [#], a value with no newline, and
    no whitespace around either. *)
Definition plain_entry (kv : string * string) : Prop :=
  str_contains eq_sign kv.1 = false ∧ str_contains nl kv.1 = false
  ∧ str_startswith hash kv.1 = false ∧ str_strip kv.1 = kv.1
  ∧ str_contains nl kv.2 = false ∧ str_strip kv.2 = kv.2.

(** ** Auxiliary definitions used in the proofs *)

(** All characters are whitespace. *)
Fixpoint all_space (s : string) : bool :=
  match s with
  | EmptyString => true
  | String c s' => isspace c && all_space s'
  end.

(** The lines of [a +:+ b] from those of [a] and of [b]: the last line of
    [a] and the first of [b] run together. *)
Fixpoint glue (la lb : list string) : list string :=
  match la with
  | [] => lb
  | [x] => match lb with
           | hb :: tb => (x +:+ hb) :: tb
           | [] => [x]
           end
  | x :: la' => x :: glue la' lb
  end.

(** The entries the specification's parser reads off a list of lines. *)
Definition entries_of (lines : list string) : list (string * string) :=
  spec_entry <$> filter (λ line, spec_keep line = true) lines.

(** [data[k] = v] for every pair, in order. *)
Definition assign_all (data : gmap string string)
  (entries : list (string * string)) : gmap string string :=
  foldl (λ d kv, <[kv.1 := kv.2]> d) data entries.

(** What [replace('\n', ' ')] does to one character. *)
Definition unbreak (c : ascii) : ascii := if Ascii.eqb c nl then sp else c.

(** The calls one [_notify_update] adds to the listener's record. *)
Definition snapshot (self : UsageFetcher) (status : string)
  (error : option string) : Snapshot :=
  {| snap_data := last_good_data self;
     snap_is_stale := is_stale self;
     snap_error := or_else error (last_error self);
     snap_status := status;
     snap_fetch_count := fetch_count self;
     snap_last_successful_fetch := last_successful_fetch self;
     snap_is_fetching := is_fetching self |}.

Definition notified (self : UsageFetcher) (status : string)
  (error : option string) : list Call :=
  if on_update self
  then [mk_call (_schedule_on_main_thread self) (snapshot self status error)]
  else [].

(** The message [_do_fetch] stores for a non-zero exit code. *)
Definition stderr_preview (err : string) : string :=
  match err with
  | EmptyString => "no stderr"
  | _ => str_replace nl sp (str_take 100 err)
  end.

Definition exit_message (p : CompletedProcess) : string :=
  "Script exit " +:+ str_of_int (returncode p) +:+ ": "
  +:+ stderr_preview (stderr p).

Definition invalid_message (data : gmap string string) : string :=
  "Got ?? values (parsed " +:+ str_of_int (Z.of_nat (size data)) +:+ " keys)".

(** The object once a failure has been recorded. *)
Definition failed (msg : string) (self : UsageFetcher) : UsageFetcher :=
  set_is_stale true (set_last_error (Some msg) self).

(** The object once validated data has been stored. *)
Definition succeeded (data : gmap string string) (t : datetime)
  (self : UsageFetcher) : UsageFetcher :=
  set_last_error None
    (set_is_stale false
       (set_last_successful_fetch (Some t)
          (set_last_good_data (Some data) self))).

(** The world just after [self.is_fetching = False]. *)
Definition landed (w : World) : World :=
  mk_world (set_is_fetching false (self_ w)) (calls w) (ticks w).

(** The world after the statements of [_do_fetch] that precede [try]. *)
Definition started (clock : nat → datetime) (w : World) : World :=
  (_do_fetch_start clock w).2.

(** ** Sample inputs *)

Definition NL : string := String nl EmptyString.

Definition sample_clock (n : nat) : datetime :=
  mk_datetime 2025 6 1 9 (n / 60) (n mod 60) 0.

Definition fresh_world : World := mk_world (__init__ true) [] 0.

Definition scenario_A : CompletedProcess :=
  mk_completed 0
    ("SESSION_REMAINING=42" +:+ NL +:+ "WEEKLY_REMAINING=88" +:+ NL)
    EmptyString.

Definition scenario_A_data : gmap string string :=
  <["WEEKLY_REMAINING" := "88"]> (<["SESSION_REMAINING" := "42"]> ∅).

Definition scenario_B : CompletedProcess :=
  mk_completed 0
    ("SESSION_REMAINING=??" +:+ NL +:+ "WEEKLY_REMAINING=50" +:+ NL)
    EmptyString.

Definition scenario_B_data : gmap string string :=
  <["WEEKLY_REMAINING" := "50"]> (<["SESSION_REMAINING" := "??"]> ∅).

Definition scenario_C : CompletedProcess :=
  mk_completed 1 EmptyString "disk full".

Definition scenario_E : CompletedProcess :=
  mk_completed 0 EmptyString EmptyString.

(** Two overlapping fetches, the first started finishing last with good
    data, then a third one started. *)
Definition sample_trace : list event :=
  [Start; Start; Finish 1 (Completed scenario_C);
   Finish 0 (Completed scenario_A); SetScheduler; Start].

(** ** Counting the events of a trace *)

Definition is_start (e : event) : bool :=
  match e with
  | Start => true
  | _ => false
  end.

Definition starts (tr : list event) : nat :=
  length (filter (λ e, is_start e = true) tr).

Definition finishes (tr : list event) : nat :=
  length (filter (λ e, is_finish e = true) tr).

(** Whether the latest [Start] or [Finish] of a trace is a [Start]. *)
Fixpoint last_is_start (tr : list event) : bool :=
  match tr with
  | [] => false
  | e :: tr' =>
      if existsb (λ e', is_start e' || is_finish e') tr' then last_is_start tr'
      else is_start e
  end.

(** The status labels [_do_fetch] and [_parse_output] can produce when
    the parsing loop does not raise. *)
Definition expected_status (status : string) : Prop :=
  ∃ rest,
    status = "Fetching #" +:+ rest
    ∨ status = "OK (fetch #" +:+ rest
    ∨ status = "Invalid data @ " +:+ rest
    ∨ status = "Error @ " +:+ rest
    ∨ status = "Timeout @ " +:+ rest.

(** ** The Windows tray shell, [windows/claude_usage_tray.py]

    The display state of [ClaudeUsageTray] and the methods that derive
    text from it.  [self.icon.title] (the tooltip) is the field
    [icon_title].  The bitmap, the [pystray] widgets and the refresh
    thread are outside the model. *)

(** [if x:] for a string or [None]: the empty string is falsy too. *)
Definition truthy (x : option string) : bool :=
  match x with
  | Some (String _ _) => true
  | _ => false
  end.

(** [f"{x}"] for an [x] already known to be a string. *)
Definition the_str (x : option string) : string := default EmptyString x.

Module Tray.

Record ClaudeUsageTray : Type := mk_tray {
  running : bool;
  data : option (gmap string string);
  is_stale : bool;
  status : string;
  error : option string;
  last_successful : option datetime;
  icon_title : string
}.

(** The display state set up by [__init__], lines 57-73; the fetcher and
    the refresh thread it also creates are modelled on their own. *)
Definition __init__ : ClaudeUsageTray :=
  {| running := true;
     data := None;
     is_stale := false;
     status := "Starting...";
     error := None;
     last_successful := None;
     icon_title := "Claude Usage: Loading..." |}.

Definition set_icon_title (title : string) (self : ClaudeUsageTray)
  : ClaudeUsageTray :=
  mk_tray (running self) (data self) (is_stale self) (status self)
    (error self) (last_successful self) title.

(** [_update_tooltip()], lines 94-106 *)
Definition _update_tooltip (self : ClaudeUsageTray) : ClaudeUsageTray :=
  if negb (falsy (data self)) then
    let v := get_display_values (data self) in
    let robot := if is_stale self then "[ZZZ]" else EmptyString in
    let warning := if exhausts_before_reset v then "[!] " else EmptyString in
    if truthy (time_remaining_str v) then
      set_icon_title
        (warning +:+ robot +:+ "Claude: "
         +:+ the_str (time_remaining_str v)
         +:+ " (" +:+ session_remaining v +:+ "%)") self
    else
      set_icon_title
        (robot +:+ "Claude: S:" +:+ session_remaining v
         +:+ "% W:" +:+ weekly_remaining v +:+ "%") self
  else set_icon_title ("Claude Usage: " +:+ status self) self.

(** [_on_fetcher_update(state)], lines 83-92 *)
Definition _on_fetcher_update (self : ClaudeUsageTray) (state : Snapshot)
  : ClaudeUsageTray :=
  _update_tooltip
    {| running := running self;
       data := snap_data state;
       is_stale := snap_is_stale state;
       status := snap_status state;
       error := snap_error state;
       last_successful := snap_last_successful_fetch state;
       icon_title := icon_title self |}.

(** [_get_display_values()], lines 108-110 *)
Definition _get_display_values (self : ClaudeUsageTray) : DisplayValues :=
  get_display_values (data self).

(** [get_account_text()], lines 112-119 *)
Definition get_account_text (self : ClaudeUsageTray) : string :=
  let v := _get_display_values self in
  if truthy (account_email v) then
    let text := "Account: " +:+ the_str (account_email v) in
    if truthy (plan_type v)
    then text +:+ " (" +:+ the_str (plan_type v) +:+ ")"
    else text
  else "Account: --".

(** [get_session_text()], lines 121-124 *)
Definition get_session_text (self : ClaudeUsageTray) : string :=
  let v := _get_display_values self in
  let stale := if is_stale self then " (stale)" else EmptyString in
  "Session: " +:+ session_remaining v +:+ "% remaining" +:+ stale.

Section confidence.

(** [percent s] stands for [round(float(s) * 100)], and is [None] when
    that raises; the conversion itself is floating-point arithmetic and
    is not modelled. *)
Variable percent : string → option Z.

(** [get_time_remaining_text()], lines 126-139 *)
Definition get_time_remaining_text (self : ClaudeUsageTray) : string :=
  let v := _get_display_values self in
  if truthy (time_remaining_str v) then
    let text := "Depletes in ~" +:+ the_str (time_remaining_str v) in
    let text :=
      if truthy (confidence v) then
        match percent (the_str (confidence v)) with
        | Some conf => text +:+ " (" +:+ str_of_int conf +:+ "% conf)"
        | None => text
        end
      else text in
    if exhausts_before_reset v then text +:+ " - before reset!" else text
  else "Depletes: --".

End confidence.

(** [get_session_resets_text()], lines 141-145 *)
Definition get_session_resets_text (self : ClaudeUsageTray) : string :=
  let v := _get_display_values self in
  if truthy (session_resets v)
  then "Resets at " +:+ the_str (session_resets v)
  else "Resets: --".

(** [get_weekly_text()], lines 147-152 *)
Definition get_weekly_text (self : ClaudeUsageTray) : string :=
  let v := _get_display_values self in
  let text := "Weekly: " +:+ weekly_remaining v +:+ "% remaining" in
  if truthy (extra_pct v)
  then text +:+ " (Extra: " +:+ the_str (extra_pct v) +:+ "% used)"
  else text.

(** [get_weekly_resets_text()], lines 154-158 *)
Definition get_weekly_resets_text (self : ClaudeUsageTray) : string :=
  let v := _get_display_values self in
  if truthy (weekly_resets v)
  then "Resets " +:+ the_str (weekly_resets v)
  else "Resets: --".

(** [get_last_updated_text()], lines 160-164; a [datetime] is always
    truthy. *)
Definition get_last_updated_text (self : ClaudeUsageTray) : string :=
  match last_successful self with
  | Some t =>
      let suffix := if is_stale self then " (stale)" else EmptyString in
      "Updated: " +:+ strftime_HMS t +:+ suffix
  | None => "Updated: Never"
  end.

(** [get_status_text()], lines 166-167 *)
Definition get_status_text (self : ClaudeUsageTray) : string :=
  "Status: " +:+ status self.

(** [get_error_text()], lines 169-172 *)
Definition get_error_text (self : ClaudeUsageTray) : string :=
  if truthy (error self)
  then "Last error: " +:+ the_str (error self)
  else "Last error: None".

(** [quit_clicked()], lines 196-198, without the call to [icon.stop()]. *)
Definition quit_clicked (self : ClaudeUsageTray) : ClaudeUsageTray :=
  mk_tray false (data self) (is_stale self) (status self) (error self)
    (last_successful self) (icon_title self).

(** The tray after the listener has received the given calls, oldest
    first.  [UsageFetcher] is created without a scheduler here, so each
    call runs [_on_fetcher_update] at once. *)
Definition after_calls (cs : list Call) (self : ClaudeUsageTray)
  : ClaudeUsageTray :=
  foldl (λ t c, _on_fetcher_update t (call_state c)) self cs.

End Tray.

(** The keys [get_display_values] reads as optional fields. *)
Definition optional_keys : list string :=
  ["TIME_REMAINING_STR"; "CONFIDENCE"; "SESSION_RESETS"; "WEEKLY_RESETS";
   "EXHAUSTS_BEFORE_RESET"; "ACCOUNT_EMAIL"; "PLAN_TYPE"; "EXTRA_USED"].

(** A stand-in for the confidence conversion in examples. *)
Definition sample_percent (s : string) : option Z :=
  if String.eqb s "0.85" then Some 85 else None.

(** The same tray holding other data. *)
Definition tray_with_data (d : option (gmap string string))
  (self : Tray.ClaudeUsageTray) : Tray.ClaudeUsageTray :=
  Tray.mk_tray (Tray.running self) d (Tray.is_stale self) (Tray.status self)
    (Tray.error self) (Tray.last_successful self) (Tray.icon_title self).

(** Two optional fields the shells cannot tell apart: equal, or both
    falsy. *)
Definition same_shown_str (x y : option string) : Prop :=
  x = y ∨ (truthy x = false ∧ truthy y = false).

Definition same_shown (v v' : DisplayValues) : Prop :=
  session_remaining v = session_remaining v'
  ∧ weekly_remaining v = weekly_remaining v'
  ∧ same_shown_str (time_remaining_str v) (time_remaining_str v')
  ∧ same_shown_str (confidence v) (confidence v')
  ∧ same_shown_str (session_resets v) (session_resets v')
  ∧ same_shown_str (weekly_resets v) (weekly_resets v')
  ∧ exhausts_before_reset v = exhausts_before_reset v'
  ∧ same_shown_str (account_email v) (account_email v')
  ∧ same_shown_str (plan_type v) (plan_type v')
  ∧ same_shown_str (extra_pct v) (extra_pct v').

(** The tray shows the fetcher's state: its data, staleness, error and
    time of last success are the fetcher's. *)
Definition tray_mirrors (t : Tray.ClaudeUsageTray) (f : UsageFetcher)
  : Prop :=
  Tray.data t = last_good_data f
  ∧ Tray.is_stale t = is_stale f
  ∧ Tray.error t = last_error f
  ∧ Tray.last_successful t = last_successful_fetch f.

(** * Properties *)

(** ** Equations of the fetcher's methods *)

Lemma notify_update_eq status error w :
  _notify_update status error w
  = (Ok tt, mk_world (self_ w) (calls w ++ notified (self_ w) status error)
              (ticks w)).
Proof.
  destruct w as [self cs n].
  unfold _notify_update, notified, snapshot, mbind, M_bind, bind, get_self,
    record_call, ret; simpl.
  destruct (on_update self); simpl; [|by rewrite app_nil_r].
  by destruct (_schedule_on_main_thread self).
Qed.

Lemma do_fetch_start_eq clock w :
  let self' := set_is_fetching true
                 (set_fetch_count (fetch_count (self_ w) + 1) (self_ w)) in
  let n := fetch_count (self_ w) + 1 in
  _do_fetch_start clock w
  = (Ok n,
     mk_world self'
       (calls w ++ notified self'
          ("Fetching #" +:+ str_of_int n +:+ " (started "
           +:+ strftime_HMS (clock (ticks w)) +:+ ")...") None)
       (S (ticks w))).
Proof.
  destruct w as [self cs n]. simpl.
  unfold _do_fetch_start, mbind, M_bind, bind, get_self, modify_self, now;
    simpl.
  by rewrite notify_update_eq.
Qed.

(** Recording a failure: what the three-statement tail shared by every
    failing branch does ([last_error], [is_stale], notify). *)
Ltac fetch_unfold :=
  unfold _do_fetch_try, _parse_output, try_except, subprocess_run, raise,
    lift, mbind, M_bind, bind, ret, modify_self, get_self, now;
  cbv beta iota zeta.

Lemma parse_output_valid clock output fetch_num data w :
  parse_data output = Ok data →
  has_valid_data data = true →
  let self' := succeeded data (clock (ticks w)) (self_ w) in
  _parse_output clock output fetch_num w
  = (Ok tt,
     mk_world self'
       (calls w ++ notified self'
          ("OK (fetch #" +:+ str_of_int fetch_num +:+ ") @ "
           +:+ strftime_HMS (clock (S (ticks w)))) None)
       (S (S (ticks w)))).
Proof.
  intros Hp Hv. destruct w as [self cs n].
  fetch_unfold. rewrite Hp. cbv beta iota. rewrite Hv.
  by rewrite notify_update_eq.
Qed.

Lemma parse_output_invalid clock output fetch_num data w :
  parse_data output = Ok data →
  has_valid_data data = false →
  _parse_output clock output fetch_num w
  = (Ok tt,
     mk_world (failed (invalid_message data) (self_ w))
       (calls w ++ notified (failed (invalid_message data) (self_ w))
          ("Invalid data @ " +:+ strftime_HMS (clock (ticks w)))
          (Some (invalid_message data)))
       (S (ticks w))).
Proof.
  intros Hp Hv. destruct w as [self cs n].
  fetch_unfold. rewrite Hp. cbv beta iota. rewrite Hv.
  by rewrite notify_update_eq.
Qed.

Lemma parse_output_raises clock output fetch_num e w :
  parse_data output = Raise e →
  _parse_output clock output fetch_num w
  = (Ok tt,
     mk_world (failed ("Parse error: " +:+ exn_str e) (self_ w))
       (calls w ++ notified (failed ("Parse error: " +:+ exn_str e) (self_ w))
          ("Parse error @ " +:+ strftime_HMS (clock (ticks w)))
          (Some ("Parse error: " +:+ exn_str e)))
       (S (ticks w))).
Proof.
  intros Hp. destruct w as [self cs n].
  fetch_unfold. rewrite Hp. cbv beta iota.
  by rewrite notify_update_eq.
Qed.

Lemma do_fetch_try_exit clock fetch_num p w :
  returncode p ≠ 0 →
  _do_fetch_try clock fetch_num (Completed p) w
  = (Ok tt,
     mk_world (failed (exit_message p) (self_ (landed w)))
       (calls w ++ notified (failed (exit_message p) (self_ (landed w)))
          ("Error @ " +:+ strftime_HMS (clock (ticks w)))
          (Some (exit_message p)))
       (S (ticks w))).
Proof.
  intros Hrc. destruct w as [self cs n].
  fetch_unfold.
  destruct (Z.eqb_spec (returncode p) 0) as [|_]; [done|].
  cbn [negb]. cbv beta iota. by rewrite notify_update_eq.
Qed.

Lemma do_fetch_try_parse clock fetch_num p w :
  returncode p = 0 →
  _do_fetch_try clock fetch_num (Completed p) w
  = _parse_output clock (stdout p) fetch_num (landed w).
Proof.
  intros Hrc. destruct w as [self cs n].
  unfold _do_fetch_try, try_except, subprocess_run, mbind, M_bind, bind, ret,
    modify_self.
  rewrite Hrc. cbn [Z.eqb negb]. cbv beta iota.
  fold (landed (mk_world self cs n)).
  generalize (landed (mk_world self cs n)). intros w.
  destruct (parse_data (stdout p)) as [data|e] eqn:Hp.
  - destruct (has_valid_data data) eqn:Hv.
    + by rewrite (parse_output_valid _ _ _ data).
    + by rewrite (parse_output_invalid _ _ _ data).
  - by rewrite (parse_output_raises _ _ _ e).
Qed.

Lemma do_fetch_try_timeout clock fetch_num m w :
  _do_fetch_try clock fetch_num (RunRaises (TimeoutExpired m)) w
  = (Ok tt,
     mk_world (failed "Timeout after 90s" (self_ (landed w)))
       (calls w ++ notified (failed "Timeout after 90s" (self_ (landed w)))
          ("Timeout @ " +:+ strftime_HMS (clock (ticks w)))
          (Some "Timeout after 90s"))
       (S (ticks w))).
Proof.
  destruct w as [self cs n]. fetch_unfold. by rewrite notify_update_eq.
Qed.

Lemma do_fetch_try_exception clock fetch_num ty m w :
  _do_fetch_try clock fetch_num (RunRaises (Exception ty m)) w
  = (Ok tt,
     mk_world (failed (ty +:+ ": " +:+ m) (self_ (landed w)))
       (calls w ++ notified (failed (ty +:+ ": " +:+ m) (self_ (landed w)))
          ("Error @ " +:+ strftime_HMS (clock (ticks w)))
          (Some (ty +:+ ": " +:+ m)))
       (S (ticks w))).
Proof.
  destruct w as [self cs n]. fetch_unfold. by rewrite notify_update_eq.
Qed.

Lemma do_fetch_eq clock r w :
  _do_fetch clock r w
  = _do_fetch_try clock (fetch_count (self_ w) + 1) r (started clock w).
Proof.
  unfold _do_fetch, started, mbind, M_bind, bind.
  by rewrite do_fetch_start_eq.
Qed.

Lemma started_eq clock w :
  started clock w
  = let self' := set_is_fetching true
                   (set_fetch_count (fetch_count (self_ w) + 1) (self_ w)) in
    mk_world self'
      (calls w ++ notified self'
         ("Fetching #" +:+ str_of_int (fetch_count (self_ w) + 1)
          +:+ " (started " +:+ strftime_HMS (clock (ticks w)) +:+ ")...")
         None)
      (S (ticks w)).
Proof. unfold started. by rewrite do_fetch_start_eq. Qed.

(** ** Validity of parsed data *)

Lemma dict_get_known (data : gmap string string) key :
  negb (String.eqb (dict_get data key "??") "??") = true
  ↔ ∃ v, data !! key = Some v ∧ v ≠ "??".
Proof.
  unfold dict_get. destruct (data !! key) as [v|] eqn:Hk.
  - destruct (String.eqb_spec v "??") as [->|Hne]; simpl.
    + split; [done|]. intros (v & [= <-] & Hv). done.
    + split; [eauto|done].
  - simpl. split; [done|]. by intros (v & ? & _).
Qed.

Lemma has_valid_data_spec data :
  has_valid_data data = true ↔ mandatory_fields_known data.
Proof.
  unfold has_valid_data, mandatory_fields_known. cbv zeta.
  rewrite andb_true_iff, !dict_get_known. split.
  - intros [(s & Hs & Hs') (wk & Hw & Hw')]. by exists s, wk.
  - intros (s & wk & Hs & Hs' & Hw & Hw'). split; eauto.
Qed.

Lemma has_valid_data_false data :
  has_valid_data data = false ↔
  data !! "SESSION_REMAINING" = None ∨ data !! "SESSION_REMAINING" = Some "??"
  ∨ data !! "WEEKLY_REMAINING" = None ∨ data !! "WEEKLY_REMAINING" = Some "??".
Proof.
  rewrite <-not_true_iff_false, has_valid_data_spec.
  unfold mandatory_fields_known. split.
  - intros Hno.
    destruct (data !! "SESSION_REMAINING") as [s|]; [|by left].
    destruct (decide (s = "??")) as [->|Hs]; [by right; left|].
    destruct (data !! "WEEKLY_REMAINING") as [wk|]; [|by right; right; left].
    destruct (decide (wk = "??")) as [->|Hw]; [by right; right; right|].
    destruct Hno. by exists s, wk.
  - intros Hcase (s & wk & Hs & Hs' & Hw & Hw').
    rewrite Hs, Hw in Hcase.
    destruct Hcase as [|[|[|]]]; congruence.
Qed.

(** ** A fetch that yields validated data *)

(** C1. A fetch attempt whose subprocess exits with code 0 and whose
    parsed output has both SESSION_REMAINING and WEEKLY_REMAINING with
    values other than ["??"] stores the whole parsed mapping in
    [last_good_data], the time read at that moment in
    [last_successful_fetch], clears [is_stale] and [last_error], and the
    listener (when one is registered) receives, after the "Fetching"
    call, one call whose status is "OK (fetch #<n>) @ <time>" and whose
    snapshot carries the new state. *)
Theorem valid_fetch_stores_parsed_mapping
  (clock : nat → datetime) (w : World) (p : CompletedProcess)
  (data : gmap string string) :
  returncode p = 0 →
  parse_data (stdout p) = Ok data →
  mandatory_fields_known data →
  let n := fetch_count (self_ w) + 1 in
  let t_stored := clock (S (ticks w)) in
  let t_label := clock (S (S (ticks w))) in
  ∃ w',
    _do_fetch clock (Completed p) w = (Ok tt, w')
    ∧ last_good_data (self_ w') = Some data
    ∧ last_successful_fetch (self_ w') = Some t_stored
    ∧ is_stale (self_ w') = false
    ∧ last_error (self_ w') = None
    ∧ is_fetching (self_ w') = false
    ∧ fetch_count (self_ w') = n
    ∧ (on_update (self_ w) = false → calls w' = calls w)
    ∧ (on_update (self_ w) = true →
       ∃ fetching,
         calls w' = calls w ++
           [fetching;
            mk_call (_schedule_on_main_thread (self_ w))
              {| snap_data := Some data;
                 snap_is_stale := false;
                 snap_error := None;
                 snap_status :=
                   "OK (fetch #" +:+ str_of_int n +:+ ") @ "
                   +:+ strftime_HMS t_label;
                 snap_fetch_count := n;
                 snap_last_successful_fetch := Some t_stored;
                 snap_is_fetching := false |}]).
Proof.
  intros Hrc Hp Hv n t_stored t_label.
  apply has_valid_data_spec in Hv.
  rewrite do_fetch_eq, (do_fetch_try_parse _ _ _ _ Hrc).
  rewrite (parse_output_valid _ _ _ data _ Hp Hv), started_eq.
  destruct w as [self cs k]. eexists; split; [reflexivity|].
  cbn [self_ calls ticks landed]. split_and!; [done..| |].
  - unfold notified. cbn. intros ->. by rewrite !app_nil_r.
  - unfold notified. cbn. intros ->. eexists. by rewrite <-app_assoc.
Qed.

Lemma valid_fetch_stores_parsed_mapping_witness :
  last_good_data
    (self_ (_do_fetch sample_clock (Completed scenario_A) fresh_world).2)
  = Some scenario_A_data.
Proof.
  destruct (valid_fetch_stores_parsed_mapping sample_clock fresh_world
              scenario_A scenario_A_data) as (w' & Hrun & Hdata & _).
  - reflexivity.
  - vm_compute. reflexivity.
  - exists "42", "88". repeat split; (vm_compute; reflexivity) || discriminate.
  - rewrite Hrun. exact Hdata.
Defined.

(** ** Failed and invalid fetches *)

Lemma failed_frame msg self :
  last_good_data (failed msg self) = last_good_data self
  ∧ last_successful_fetch (failed msg self) = last_successful_fetch self
  ∧ is_stale (failed msg self) = true
  ∧ last_error (failed msg self) = Some msg.
Proof. by destruct self. Qed.

(** Whatever the outcome, the [try] statement returns normally. *)
Lemma do_fetch_try_cases clock n r w :
  (∃ p data, r = Completed p ∧ returncode p = 0
             ∧ parse_data (stdout p) = Ok data
             ∧ has_valid_data data = true
             ∧ attempt_succeeds r = true
             ∧ (_do_fetch_try clock n r w).1 = Ok tt
             ∧ self_ (_do_fetch_try clock n r w).2
               = succeeded data (clock (ticks w)) (self_ (landed w)))
  ∨ (∃ msg, attempt_succeeds r = false
            ∧ (_do_fetch_try clock n r w).1 = Ok tt
            ∧ self_ (_do_fetch_try clock n r w).2
              = failed msg (self_ (landed w))).
Proof.
  destruct r as [p|[m|ty m]].
  - destruct (decide (returncode p = 0)) as [Hrc|Hrc].
    + rewrite (do_fetch_try_parse _ _ _ _ Hrc).
      unfold attempt_succeeds. rewrite Hrc. cbn [Z.eqb andb].
      destruct (parse_data (stdout p)) as [data|e] eqn:Hp.
      * destruct (has_valid_data data) eqn:Hv.
        -- left. exists p, data.
           by rewrite (parse_output_valid _ _ _ data _ Hp Hv).
        -- right. eexists.
           by rewrite (parse_output_invalid _ _ _ data _ Hp Hv).
      * right. eexists. by rewrite (parse_output_raises _ _ _ e _ Hp).
    + right. eexists. rewrite (do_fetch_try_exit _ _ _ _ Hrc).
      unfold attempt_succeeds.
      by destruct (Z.eqb_spec (returncode p) 0).
  - right. eexists. by rewrite do_fetch_try_timeout.
  - right. eexists. by rewrite do_fetch_try_exception.
Qed.

Lemma do_fetch_try_failed_frame clock n r w :
  attempt_succeeds r = false →
  let w' := (_do_fetch_try clock n r w).2 in
  last_good_data (self_ w') = last_good_data (self_ w)
  ∧ last_successful_fetch (self_ w') = last_successful_fetch (self_ w)
  ∧ is_stale (self_ w') = true.
Proof.
  intros Hf. cbv zeta.
  destruct (do_fetch_try_cases clock n r w)
    as [(p & data & _ & _ & _ & _ & Hs & _)|(msg & _ & _ & ->)];
    [congruence|].
  by destruct w as [[]].
Qed.

Lemma do_fetch_failed_frame clock r w :
  attempt_succeeds r = false →
  let w' := (_do_fetch clock r w).2 in
  last_good_data (self_ w') = last_good_data (self_ w)
  ∧ last_successful_fetch (self_ w') = last_successful_fetch (self_ w)
  ∧ is_stale (self_ w') = true.
Proof.
  intros Hf. cbv zeta. rewrite do_fetch_eq.
  destruct (do_fetch_try_failed_frame clock (fetch_count (self_ w) + 1) r
              (started clock w) Hf) as (-> & -> & ->).
  rewrite started_eq. by destruct w as [[]].
Qed.

Lemma do_fetches_failed_frame clock rs w :
  Forall (λ r, attempt_succeeds r = false) rs →
  last_good_data (self_ (do_fetches clock rs w)) = last_good_data (self_ w)
  ∧ last_successful_fetch (self_ (do_fetches clock rs w))
    = last_successful_fetch (self_ w)
  ∧ (rs ≠ [] → is_stale (self_ (do_fetches clock rs w)) = true).
Proof.
  intros Hall. revert w.
  induction Hall as [|r rs Hr _ IH]; intros w; [done|].
  cbn [do_fetches].
  destruct (do_fetch_failed_frame clock r w Hr) as (Hd & Ht & Hs).
  destruct (IH (_do_fetch clock r w).2) as (-> & -> & Hs').
  repeat split; [done..|]. intros _.
  destruct rs as [|r' rs]; [done|]. by apply Hs'.
Qed.

(** C2. A fetch attempt that does not yield validated data (non-zero
    exit, timeout, launch failure, invalid or unparseable output) leaves
    [last_good_data] and [last_successful_fetch] as they were and sets
    [is_stale]; so after a successful fetch followed by any non-empty run
    of such attempts, [last_good_data] is still the mapping of the
    successful fetch and [is_stale] is true. *)
Theorem failed_fetch_keeps_last_good_data (clock : nat → datetime) :
  (∀ w r,
     attempt_succeeds r = false →
     let w' := (_do_fetch clock r w).2 in
     last_good_data (self_ w') = last_good_data (self_ w)
     ∧ last_successful_fetch (self_ w') = last_successful_fetch (self_ w)
     ∧ is_stale (self_ w') = true)
  ∧ (∀ w p data rs,
       returncode p = 0 →
       parse_data (stdout p) = Ok data →
       mandatory_fields_known data →
       rs ≠ [] →
       Forall (λ r, attempt_succeeds r = false) rs →
       let w' := do_fetches clock (Completed p :: rs) w in
       last_good_data (self_ w') = Some data
       ∧ is_stale (self_ w') = true).
Proof.
  split; [intros w r; apply do_fetch_failed_frame|].
  intros w p data rs Hrc Hp Hv Hne Hall. cbn [do_fetches]. cbv zeta.
  destruct (do_fetches_failed_frame clock rs
              (_do_fetch clock (Completed p) w).2 Hall) as (-> & _ & Hs).
  split; [|by apply Hs].
  apply has_valid_data_spec in Hv.
  rewrite do_fetch_eq, (do_fetch_try_parse _ _ _ _ Hrc).
  by rewrite (parse_output_valid _ _ _ data _ Hp Hv).
Qed.

Lemma failed_fetch_keeps_last_good_data_witness :
  let w' := do_fetches sample_clock
              [Completed scenario_A; Completed scenario_C;
               RunRaises (TimeoutExpired "timed out");
               Completed scenario_B] fresh_world in
  last_good_data (self_ w') = Some scenario_A_data
  ∧ is_stale (self_ w') = true.
Proof.
  apply (proj2 (failed_fetch_keeps_last_good_data sample_clock)).
  - reflexivity.
  - vm_compute. reflexivity.
  - exists "42", "88". repeat split; (vm_compute; reflexivity) || discriminate.
  - discriminate.
  - repeat constructor.
Defined.

(** ** Non-zero exit codes *)

Lemma do_fetch_exit clock w p :
  returncode p ≠ 0 →
  let self' := failed (exit_message p) (self_ (landed (started clock w))) in
  _do_fetch clock (Completed p) w
  = (Ok tt,
     mk_world self'
       (calls (started clock w) ++ notified self'
          ("Error @ " +:+ strftime_HMS (clock (S (ticks w))))
          (Some (exit_message p)))
       (S (S (ticks w)))).
Proof.
  intros Hrc. cbv zeta.
  rewrite do_fetch_eq, (do_fetch_try_exit _ _ _ _ Hrc), started_eq.
  by destruct w.
Qed.

Lemma str_take_get n s i :
  String.get i (str_take n s)
  = if (i <? n)%nat then String.get i s else None.
Proof.
  revert s i. induction n as [|n IH]; intros s i.
  - by destruct s.
  - destruct s as [|a s]; cbn [str_take].
    + by destruct (i <? S n)%nat.
    + destruct i as [|i]; [done|]. cbn [String.get]. by rewrite IH.
Qed.

Lemma str_replace_get old new s i :
  String.get i (str_replace old new s)
  = (λ c, if Ascii.eqb c old then new else c) <$> String.get i s.
Proof.
  revert i. induction s as [|a s IH]; intros i; [by destruct i|].
  destruct i as [|i]; [done|]. cbn [str_replace String.get]. apply IH.
Qed.

Lemma str_replace_contains old new s :
  old ≠ new → str_contains old (str_replace old new s) = false.
Proof.
  intros Hne. induction s as [|a s IH]; [done|].
  cbn [str_replace str_contains]. rewrite IH.
  destruct (Ascii.eqb_spec a old) as [->|Ha].
  - by destruct (Ascii.eqb_spec new old) as [->|].
  - by destruct (Ascii.eqb_spec a old).
Qed.

Lemma str_replace_absent old new s :
  str_contains old s = false → str_replace old new s = s.
Proof.
  induction s as [|a s IH]; [done|].
  cbn [str_contains str_replace].
  destruct (Ascii.eqb a old); [done|]. intros Hs. by rewrite IH.
Qed.

(** C6 (amended). A fetch attempt whose subprocess exits with a non-zero
    code clears [is_fetching], sets [is_stale], and stores in
    [last_error] the text "Script exit <code>: <preview>", where the
    preview is the first 100 characters of stderr with every newline
    turned into a space, or "no stderr" when stderr is empty; the
    listener, when registered, then receives a call with status
    "Error @ <time>" carrying that error.  Exit code 1 with stderr
    "disk full" gives "Script exit 1: disk full".  When stderr is not
    empty and has no newline among its first 100 characters the preview
    is just those characters. *)
Theorem nonzero_exit_is_reported (clock : nat → datetime) :
  (∀ w p,
     returncode p ≠ 0 →
     ∃ w',
       _do_fetch clock (Completed p) w = (Ok tt, w')
       ∧ is_fetching (self_ w') = false
       ∧ is_stale (self_ w') = true
       ∧ last_error (self_ w')
         = Some ("Script exit " +:+ str_of_int (returncode p) +:+ ": "
                 +:+ match stderr p with
                     | EmptyString => "no stderr"
                     | err => str_replace nl sp (str_take 100 err)
                     end)
       ∧ (on_update (self_ w) = true →
          ∃ fetching,
            calls w' = calls w ++
              [fetching;
               mk_call (_schedule_on_main_thread (self_ w))
                 {| snap_data := last_good_data (self_ w);
                    snap_is_stale := true;
                    snap_error := last_error (self_ w');
                    snap_status :=
                      "Error @ " +:+ strftime_HMS (clock (S (ticks w)));
                    snap_fetch_count := fetch_count (self_ w) + 1;
                    snap_last_successful_fetch :=
                      last_successful_fetch (self_ w);
                    snap_is_fetching := false |}]))
  ∧ (∀ w out,
       let w' := (_do_fetch clock
                    (Completed (mk_completed 1 out "disk full")) w).2 in
       last_error (self_ w') = Some "Script exit 1: disk full"
       ∧ is_stale (self_ w') = true)
  ∧ (∀ w p,
       returncode p ≠ 0 →
       stderr p ≠ EmptyString →
       str_contains nl (str_take 100 (stderr p)) = false →
       last_error (self_ (_do_fetch clock (Completed p) w).2)
       = Some (spec_exit_message p)).
Proof.
  split; [|split].
  - intros w p Hrc. rewrite (do_fetch_exit _ _ _ Hrc), started_eq.
    eexists; split; [reflexivity|].
    destruct w as [self cs k]. cbn [self_ calls ticks landed].
    split_and!; [reflexivity..| |].
    + unfold failed, exit_message, stderr_preview. cbn [last_error set_is_stale set_last_error].
      by destruct (stderr p).
    + unfold notified. cbn. intros ->. eexists. by rewrite <-app_assoc.
  - intros w out. cbv zeta. by rewrite do_fetch_exit.
  - intros w p Hrc Herr Hnl. rewrite (do_fetch_exit _ _ _ Hrc).
    cbn [snd self_]. destruct (failed_frame (exit_message p)
      (self_ (landed (started clock w)))) as (_ & _ & _ & ->).
    unfold exit_message, spec_exit_message, stderr_preview.
    destruct (stderr p) as [|a s]; [done|].
    by rewrite (str_replace_absent _ _ _ Hnl).
Qed.

Lemma nonzero_exit_is_reported_witness :
  last_error
    (self_ (_do_fetch sample_clock (Completed scenario_C) fresh_world).2)
  = Some (spec_exit_message scenario_C).
Proof.
  apply (proj2 (proj2 (nonzero_exit_is_reported sample_clock))).
  - discriminate.
  - discriminate.
  - reflexivity.
Defined.

(** C6, as first stated, fails: with an empty stderr the stored message
    ends in "no stderr" and not in an empty preview, and a newline in
    stderr is not kept. *)
Lemma nonzero_exit_counterexample :
  let quiet := mk_completed 2 EmptyString EmptyString in
  let two_lines := mk_completed 2 EmptyString ("a" +:+ NL +:+ "b") in
  last_error (self_ (_do_fetch sample_clock (Completed quiet) fresh_world).2)
  ≠ Some (spec_exit_message quiet)
  ∧ last_error
      (self_ (_do_fetch sample_clock (Completed two_lines) fresh_world).2)
    ≠ Some (spec_exit_message two_lines).
Proof. split; vm_compute; discriminate. Qed.

(** C10. In the message stored for a non-zero exit, the preview holds
    the first 100 characters of stderr with each newline replaced by a
    space (so it has no newline), and for an empty stderr the message is
    "Script exit <code>: no stderr". *)
Theorem exit_message_preview
  (clock : nat → datetime) (w : World) (p : CompletedProcess) :
  returncode p ≠ 0 →
  ∃ preview,
    last_error (self_ (_do_fetch clock (Completed p) w).2)
    = Some ("Script exit " +:+ str_of_int (returncode p) +:+ ": "
            +:+ preview)
    ∧ (stderr p = EmptyString → preview = "no stderr")
    ∧ (stderr p ≠ EmptyString →
       str_contains nl preview = false
       ∧ ∀ i, String.get i preview
              = if (i <? 100)%nat then unbreak <$> String.get i (stderr p)
                else None).
Proof.
  intros Hrc. exists (stderr_preview (stderr p)).
  rewrite (do_fetch_exit _ _ _ Hrc). cbn [snd self_].
  destruct (failed_frame (exit_message p)
    (self_ (landed (started clock w)))) as (_ & _ & _ & ->).
  split; [done|]. split; [by intros ->|].
  intros Herr. unfold stderr_preview.
  destruct (stderr p) as [|a s] eqn:Hs; [done|]. split.
  - by apply str_replace_contains.
  - intros i. rewrite str_replace_get, str_take_get.
    by destruct (i <? 100)%nat.
Qed.

Lemma exit_message_preview_witness :
  ∃ preview,
    last_error
      (self_ (_do_fetch sample_clock
                (Completed (mk_completed 3 EmptyString
                              ("line one" +:+ NL +:+ "line two")))
                fresh_world).2)
    = Some ("Script exit 3: " +:+ preview)
    ∧ str_contains nl preview = false
    ∧ String.get 8 preview = Some sp.
Proof.
  destruct (exit_message_preview sample_clock fresh_world
              (mk_completed 3 EmptyString ("line one" +:+ NL +:+ "line two")))
    as (preview & Herr & _ & Hpre).
  - discriminate.
  - exists preview. destruct Hpre as [Hnl Hget]; [discriminate|].
    split; [exact Herr|]. split; [exact Hnl|]. by rewrite Hget.
Defined.

(** ** Exit code 0 with invalid data *)

Lemma do_fetch_invalid clock w p data :
  returncode p = 0 →
  parse_data (stdout p) = Ok data →
  has_valid_data data = false →
  self_ (_do_fetch clock (Completed p) w).2
  = failed (invalid_message data) (self_ (landed (started clock w))).
Proof.
  intros Hrc Hp Hv.
  rewrite do_fetch_eq, (do_fetch_try_parse _ _ _ _ Hrc).
  by rewrite (parse_output_invalid _ _ _ data _ Hp Hv).
Qed.

(** C7. A fetch attempt whose subprocess exits 0 but whose parsed output
    lacks SESSION_REMAINING or WEEKLY_REMAINING, or has ["??"] for
    either, sets [is_stale] and stores
    "Got ?? values (parsed <k> keys)" in [last_error], [k] being the
    number of parsed keys: 2 for the output
    "SESSION_REMAINING=??\nWEEKLY_REMAINING=50\n" and 0 for an empty
    output. *)
Theorem invalid_output_is_reported (clock : nat → datetime) :
  (∀ w p data,
     returncode p = 0 →
     parse_data (stdout p) = Ok data →
     data !! "SESSION_REMAINING" = None
     ∨ data !! "SESSION_REMAINING" = Some "??"
     ∨ data !! "WEEKLY_REMAINING" = None
     ∨ data !! "WEEKLY_REMAINING" = Some "??" →
     let w' := (_do_fetch clock (Completed p) w).2 in
     is_stale (self_ w') = true
     ∧ last_error (self_ w')
       = Some ("Got ?? values (parsed "
               +:+ str_of_int (Z.of_nat (size data)) +:+ " keys)"))
  ∧ (∀ w err,
       let out := "SESSION_REMAINING=??" +:+ String nl
                    ("WEEKLY_REMAINING=50" +:+ String nl EmptyString) in
       let w' := (_do_fetch clock (Completed (mk_completed 0 out err)) w).2 in
       is_stale (self_ w') = true
       ∧ last_error (self_ w') = Some "Got ?? values (parsed 2 keys)")
  ∧ (∀ w err,
       let w' := (_do_fetch clock
                    (Completed (mk_completed 0 EmptyString err)) w).2 in
       is_stale (self_ w') = true
       ∧ last_error (self_ w') = Some "Got ?? values (parsed 0 keys)").
Proof.
  split; [|split].
  - intros w p data Hrc Hp Hv. apply has_valid_data_false in Hv. cbv zeta.
    rewrite (do_fetch_invalid _ _ _ data Hrc Hp Hv).
    by destruct (failed_frame (invalid_message data)
                   (self_ (landed (started clock w)))) as (_ & _ & -> & ->).
  - intros w err. cbv zeta.
    by rewrite (do_fetch_invalid _ _ _ scenario_B_data).
  - intros w err. cbv zeta.
    by rewrite (do_fetch_invalid _ _ _ ∅).
Qed.

Lemma invalid_output_is_reported_witness :
  let w' := (_do_fetch sample_clock (Completed scenario_B) fresh_world).2 in
  is_stale (self_ w') = true
  ∧ last_error (self_ w') = Some "Got ?? values (parsed 2 keys)".
Proof.
  apply (proj1 (invalid_output_is_reported sample_clock)
           fresh_world scenario_B scenario_B_data).
  - reflexivity.
  - vm_compute. reflexivity.
  - right. left. vm_compute. reflexivity.
Defined.

(** ** Display projection *)

Lemma falsy_nonempty (d : gmap string string) :
  d ≠ ∅ → falsy (Some d) = false.
Proof.
  intros Hne. unfold falsy. apply bool_decide_eq_false.
  intros Hsize. by apply Hne, map_size_empty_iff.
Qed.

Lemma dict_get_default (d : gmap string string) key dflt :
  dict_get d key dflt = default dflt (d !! key).
Proof. unfold dict_get. by destruct (d !! key). Qed.

Lemma is_true_str_spec (x : option string) :
  is_true_str x = bool_decide (x = Some "true").
Proof.
  destruct x as [s|]; [|done]. cbn [is_true_str].
  destruct (String.eqb_spec s "true") as [->|Hne]; [done|].
  symmetry. apply bool_decide_eq_false. by intros [= ->].
Qed.

(** C5 (amended). [get_display_values] is a total function.  For absent
    input it returns the all-default record: "--" for both percentages,
    nothing for the optional strings, false for the flag.  For a present,
    non-empty mapping it returns each of the ten fields read at its fixed
    key, with "??" for a missing percentage and nothing for a missing
    optional string, and [exhausts_before_reset] is true exactly when the
    raw value is the string "true". *)
Theorem display_values_of_nonempty_mapping :
  get_display_values None
  = mk_display "--" "--" None None None None false None None None
  ∧ ∀ d : gmap string string,
      d ≠ ∅ →
      get_display_values (Some d) = spec_project d
      ∧ (exhausts_before_reset (get_display_values (Some d)) = true
         ↔ d !! "EXHAUSTS_BEFORE_RESET" = Some "true").
Proof.
  split; [done|]. intros d Hne.
  assert (get_display_values (Some d) = spec_project d) as Heq.
  { unfold get_display_values. rewrite (falsy_nonempty d Hne).
    unfold spec_project. by rewrite !dict_get_default, is_true_str_spec. }
  split; [done|]. rewrite Heq. cbn [exhausts_before_reset spec_project].
  apply bool_decide_eq_true.
Qed.

Lemma display_values_of_nonempty_mapping_witness :
  get_display_values (Some scenario_A_data)
  = mk_display "42" "88" None None None None false None None None.
Proof.
  destruct (proj2 display_values_of_nonempty_mapping scenario_A_data)
    as [-> _].
  - vm_compute. discriminate.
  - vm_compute. reflexivity.
Defined.

(** C5, as first stated, fails: a present mapping with no entries is not
    projected by the field table. *)
Lemma display_values_counterexample :
  get_display_values (Some ∅) ≠ spec_project ∅
  ∧ session_remaining (get_display_values (Some ∅)) ≠ "??".
Proof. split; vm_compute; discriminate. Qed.

(** C9. A present but empty mapping is projected like absent input: both
    percentages are "--", not the per-key default "??". *)
Theorem empty_mapping_projects_like_absent :
  get_display_values (Some ∅) = get_display_values None
  ∧ session_remaining (get_display_values (Some ∅)) = "--"
  ∧ weekly_remaining (get_display_values (Some ∅)) = "--"
  ∧ session_remaining (get_display_values (Some ∅))
    ≠ default "??" ((∅ : gmap string string) !! "SESSION_REMAINING")
  ∧ weekly_remaining (get_display_values (Some ∅))
    ≠ default "??" ((∅ : gmap string string) !! "WEEKLY_REMAINING").
Proof. split_and!; try reflexivity; vm_compute; discriminate. Qed.

(** ** Reachable states *)

Lemma run_snoc clock s tr e :
  run clock s (tr ++ [e])
  = match run clock s tr with
    | Some s' => step clock s' e
    | None => None
    end.
Proof.
  revert s. induction tr as [|e' tr IH]; intros s; cbn [run app].
  - by destruct (step clock s e).
  - destruct (step clock s e'); [apply IH|done].
Qed.

(** Starting a fetch or registering the scheduler touches neither the
    cached data nor the staleness flag. *)
Lemma step_quiet clock s e s' :
  is_finish e = false →
  step clock s e = Some s' →
  last_good_data (fetcher s') = last_good_data (fetcher s)
  ∧ is_stale (fetcher s') = is_stale (fetcher s).
Proof.
  destruct s as [[[] cs k] fl]. destruct e as [|i r|]; [|done|].
  - intros _. cbn [step world]. rewrite do_fetch_start_eq.
    by intros [= <-].
  - intros _. by intros [= <-].
Qed.

Lemma step_finish clock s i r s' :
  step clock s (Finish i r) = Some s' →
  ∃ n, fetcher s' = self_ (_do_fetch_try clock n r (world s)).2.
Proof.
  cbn [step]. destruct (in_flight s !! i) as [n|]; [|done].
  intros [= <-]. by exists n.
Qed.

Lemma known_fields_nonempty (data : gmap string string) :
  mandatory_fields_known data → data ≠ ∅.
Proof. intros (s & wk & Hs & _) ->. by rewrite lookup_empty in Hs. Qed.

(** C3 (amended). In every state reached from the initial one by
    starting fetches, finishing them in any order and registering the
    scheduler, [is_stale = false] means one of two things: no fetch
    attempt has finished yet and [last_good_data] is still absent (the
    state right after construction); or the attempt that finished last
    exited with code 0 and produced validated data, and [last_good_data]
    is exactly the non-empty mapping parsed from its output. *)
Theorem not_stale_means_initial_or_fresh
  (clock : nat → datetime) (listener : bool) (tr : list event) (s : System) :
  run clock (initial listener) tr = Some s →
  is_stale (fetcher s) = false →
  (Forall (λ e, is_finish e = false) tr
   ∧ last_good_data (fetcher s) = None)
  ∨ (∃ tr1 i p data tr2,
       tr = tr1 ++ Finish i (Completed p) :: tr2
       ∧ Forall (λ e, is_finish e = false) tr2
       ∧ returncode p = 0
       ∧ parse_data (stdout p) = Ok data
       ∧ mandatory_fields_known data
       ∧ data ≠ ∅
       ∧ last_good_data (fetcher s) = Some data).
Proof.
  revert s. induction tr as [|e tr IH] using rev_ind; intros s.
  - intros [= <-] _. left. by split.
  - rewrite run_snoc. destruct (run clock (initial listener) tr) as [s0|];
      [|done].
    specialize (IH s0 eq_refl). intros Hstep Hfresh.
    destruct (is_finish e) eqn:He.
    + destruct e as [|i r|]; [done| |done].
      destruct (step_finish _ _ _ _ _ Hstep) as [n Hs].
      rewrite Hs in Hfresh |- *.
      destruct (do_fetch_try_cases clock n r (world s0))
        as [(p & data & -> & Hrc & Hp & Hv & _ & _ & Hself)
           |(msg & _ & _ & Hself)];
        rewrite Hself in Hfresh |- *.
      * right. exists tr, i, p, data, [].
        apply has_valid_data_spec in Hv.
        split_and!; [done..|by apply known_fields_nonempty|].
        by destruct (world s0) as [[]].
      * by destruct (failed_frame msg (self_ (landed (world s0))))
          as (_ & _ & Hst & _); rewrite Hst in Hfresh.
    + destruct (step_quiet _ _ _ _ He Hstep) as [Hd Hs].
      rewrite Hd. rewrite Hs in Hfresh.
      destruct (IH Hfresh) as [[Hall Hnone]
        |(tr1 & i & p & data & tr2 & -> & Hall & Hrest)].
      * left. split; [|done]. apply Forall_app. by split; [|constructor].
      * right. exists tr1, i, p, data, (tr2 ++ [e]). split.
        { by rewrite <-app_assoc. }
        split; [|done]. apply Forall_app. by split; [|constructor].
Qed.

Lemma not_stale_means_initial_or_fresh_witness :
  ∃ s,
    run sample_clock (initial true) sample_trace = Some s
    ∧ is_stale (fetcher s) = false
    ∧ ((Forall (λ e, is_finish e = false) sample_trace
        ∧ last_good_data (fetcher s) = None)
       ∨ (∃ tr1 i p data tr2,
            sample_trace = tr1 ++ Finish i (Completed p) :: tr2
            ∧ Forall (λ e, is_finish e = false) tr2
            ∧ returncode p = 0
            ∧ parse_data (stdout p) = Ok data
            ∧ mandatory_fields_known data
            ∧ data ≠ ∅
            ∧ last_good_data (fetcher s) = Some data)).
Proof.
  eexists. split; [vm_compute; reflexivity|].
  split; [vm_compute; reflexivity|].
  apply (not_stale_means_initial_or_fresh sample_clock true sample_trace).
  - vm_compute. reflexivity.
  - vm_compute. reflexivity.
Defined.

(** C3, as first stated, fails in the state right after construction:
    it is reachable (by the empty trace), not stale, and holds no data. *)
Lemma initial_state_counterexample :
  let s := initial true in
  run sample_clock (initial true) [] = Some s
  ∧ ¬ (is_stale (fetcher s) = false →
       ∃ data, last_good_data (fetcher s) = Some data ∧ data ≠ ∅).
Proof.
  split; [reflexivity|]. intros Hclaim.
  destruct (Hclaim eq_refl) as (data & Hdata & _). discriminate.
Qed.

(** ** Strings: concatenation, whitespace, stripping *)

Section strings.

Implicit Types (s a b w x : string) (c sep : ascii).

Lemma str_app_nil s : EmptyString +:+ s = s.
Proof. reflexivity. Qed.

Lemma str_app_cons c a b : String c a +:+ b = String c (a +:+ b).
Proof. reflexivity. Qed.

Ltac str_simpl := rewrite ?str_app_cons, ?str_app_nil; simpl.

Lemma str_app_empty_r s : s +:+ EmptyString = s.
Proof. induction s as [|c s IH]; [done|]. str_simpl. by rewrite IH. Qed.

Lemma str_contains_app c a b :
  str_contains c (a +:+ b) = str_contains c a || str_contains c b.
Proof.
  induction a as [|c' a IH]; [done|]. str_simpl.
  by destruct (Ascii.eqb c' c).
Qed.

Lemma all_space_contains c w :
  isspace c = false → all_space w = true → str_contains c w = false.
Proof.
  intros Hc. induction w as [|c' w IH]; [done|]. str_simpl.
  intros [Hc' Hw]%andb_true_iff.
  destruct (Ascii.eqb_spec c' c) as [->|_]; [congruence|]. by apply IH.
Qed.

Lemma all_space_startswith c w :
  isspace c = false → all_space w = true → str_startswith c w = false.
Proof.
  intros Hc. destruct w as [|c' w]; [done|]. str_simpl.
  intros [Hc' _]%andb_true_iff.
  destruct (Ascii.eqb_spec c' c) as [->|_]; [congruence|done].
Qed.

(** *** [lstrip] *)

Lemma lstrip_all_space w : all_space w = true → str_lstrip w = EmptyString.
Proof.
  induction w as [|c w IH]; [done|]. str_simpl.
  intros [-> Hw]%andb_true_iff. by apply IH.
Qed.

Lemma lstrip_app_space w s :
  all_space w = true → str_lstrip (w +:+ s) = str_lstrip s.
Proof.
  induction w as [|c w IH]; [done|]. str_simpl.
  intros [-> Hw]%andb_true_iff. by apply IH.
Qed.

Lemma lstrip_split s :
  ∃ w, all_space w = true ∧ s = w +:+ str_lstrip s.
Proof.
  induction s as [|c s (w & Hw & Hs)]; [by exists EmptyString|].
  cbn [str_lstrip]. destruct (isspace c) eqn:Hc.
  - exists (String c w). str_simpl. rewrite Hc, Hw. split; [done|]. by f_equal.
  - by exists EmptyString.
Qed.

Lemma lstrip_head s :
  match str_lstrip s with
  | EmptyString => all_space s = true
  | String c _ => isspace c = false
  end.
Proof.
  induction s as [|c s IH]; [done|]. str_simpl.
  destruct (isspace c) eqn:Hc; [|done].
  by destruct (str_lstrip s).
Qed.

Lemma lstrip_app s w :
  all_space s = false → str_lstrip (s +:+ w) = str_lstrip s +:+ w.
Proof.
  induction s as [|c s IH]; [done|]. str_simpl.
  destruct (isspace c); [apply IH|done].
Qed.

Lemma lstrip_length s : (String.length (str_lstrip s) ≤ String.length s)%nat.
Proof.
  induction s as [|c s IH]; [done|]. str_simpl.
  destruct (isspace c); simpl; lia.
Qed.

Lemma lstrip_fixed s :
  String.length (str_lstrip s) = String.length s → str_lstrip s = s.
Proof.
  destruct s as [|c s]; [done|]. str_simpl.
  destruct (isspace c); [|done].
  pose proof (lstrip_length s). lia.
Qed.

(** *** [rstrip] *)

Lemma rstrip_all_space w : all_space w = true → str_rstrip w = EmptyString.
Proof.
  induction w as [|c w IH]; [done|]. str_simpl.
  intros [-> Hw]%andb_true_iff. by rewrite IH.
Qed.

Lemma rstrip_empty s : str_rstrip s = EmptyString → all_space s = true.
Proof.
  induction s as [|c s IH]; [done|]. str_simpl.
  destruct (str_rstrip s); [|done].
  destruct (isspace c); [|done]. intros _. by apply IH.
Qed.

Lemma rstrip_app_space s w :
  all_space w = true → str_rstrip (s +:+ w) = str_rstrip s.
Proof.
  intros Hw. induction s as [|c s IH]; [by apply rstrip_all_space|].
  str_simpl. by rewrite IH.
Qed.

Lemma rstrip_split s :
  ∃ w, all_space w = true ∧ s = str_rstrip s +:+ w.
Proof.
  induction s as [|c s (w & Hw & Hs)]; [by exists EmptyString|].
  cbn [str_rstrip]. destruct (str_rstrip s) as [|c' r] eqn:Hr.
  - destruct (isspace c) eqn:Hc.
    + exists (String c s). str_simpl. rewrite Hc. split; [|done].
      by apply rstrip_empty.
    + exists w. split; [done|]. str_simpl. by f_equal.
  - exists w. split; [done|]. str_simpl. by f_equal.
Qed.

Lemma rstrip_length s : (String.length (str_rstrip s) ≤ String.length s)%nat.
Proof.
  induction s as [|c s IH]; [done|]. str_simpl.
  destruct (str_rstrip s); [destruct (isspace c)|]; simpl in *; lia.
Qed.

Lemma rstrip_head c s :
  isspace c = false →
  str_rstrip (String c s) = String c (str_rstrip s).
Proof. intros Hc. str_simpl. rewrite Hc. by destruct (str_rstrip s). Qed.

(** *** [strip] *)

Lemma strip_app_space_r s w :
  all_space w = true → str_strip (s +:+ w) = str_strip s.
Proof.
  intros Hw. unfold str_strip. destruct (all_space s) eqn:Hs.
  - rewrite lstrip_app_space, !lstrip_all_space; done.
  - by rewrite lstrip_app, rstrip_app_space.
Qed.

Lemma strip_app_space_l w s :
  all_space w = true → str_strip (w +:+ s) = str_strip s.
Proof. intros Hw. unfold str_strip. by rewrite lstrip_app_space. Qed.

Lemma strip_fixed_lstrip s : str_strip s = s → str_lstrip s = s.
Proof.
  unfold str_strip. intros Hs. apply lstrip_fixed.
  pose proof (rstrip_length (str_lstrip s)) as H1.
  pose proof (lstrip_length s) as H2. rewrite Hs in H1. lia.
Qed.

Lemma rstrip_idem s : str_rstrip (str_rstrip s) = str_rstrip s.
Proof.
  induction s as [|c s IH]; [done|]. simpl.
  destruct (str_rstrip s) as [|c' r] eqn:Hr.
  - destruct (isspace c) eqn:Hc; [done|]. simpl. by rewrite Hc.
  - change (str_rstrip (String c (String c' r)))
      with (match str_rstrip (String c' r) with
            | EmptyString =>
                if isspace c then EmptyString else String c EmptyString
            | String c'' r' => String c (String c'' r')
            end).
    by rewrite IH.
Qed.

(** [strip] removes whitespace, and only whitespace, from both ends. *)
Lemma strip_spec s :
  (∃ w1 w2, all_space w1 = true ∧ all_space w2 = true
            ∧ s = w1 +:+ str_strip s +:+ w2)
  ∧ str_strip (str_strip s) = str_strip s.
Proof.
  split.
  - destruct (lstrip_split s) as (w1 & Hw1 & Hs1).
    destruct (rstrip_split (str_lstrip s)) as (w2 & Hw2 & Hs2).
    exists w1, w2. unfold str_strip. by rewrite <-Hs2.
  - unfold str_strip. pose proof (lstrip_head s) as Hhead.
    destruct (str_lstrip s) as [|c t]; [done|].
    rewrite (rstrip_head _ _ Hhead). simpl. rewrite Hhead.
    rewrite <-(rstrip_head _ _ Hhead). apply rstrip_idem.
Qed.

(** *** [split] and cutting at the first separator *)

Lemma split_nonempty sep s : str_split sep s ≠ [].
Proof.
  destruct s as [|c s]; [done|]. simpl.
  destruct (Ascii.eqb c sep); [done|]. by destruct (str_split sep s).
Qed.

Lemma split_cons sep c s :
  str_split sep (String c s)
  = if Ascii.eqb c sep then EmptyString :: str_split sep s
    else match str_split sep s with
         | h :: t => String c h :: t
         | [] => [String c EmptyString]
         end.
Proof. reflexivity. Qed.

Lemma split_absent sep s :
  str_contains sep s = false → str_split sep s = [s].
Proof.
  induction s as [|c s IH]; [done|]. simpl.
  destruct (Ascii.eqb c sep); [done|]. intros Hs. by rewrite IH.
Qed.

Lemma glue_cons x la lb :
  la ≠ [] → glue (x :: la) lb = x :: glue la lb.
Proof. by destruct la. Qed.

Lemma glue_head c h t lb :
  glue (String c h :: t) lb
  = match glue (h :: t) lb with
    | h' :: t' => String c h' :: t'
    | [] => [String c EmptyString]
    end.
Proof.
  destruct t as [|y t]; [|done]. by destruct lb.
Qed.

Lemma split_app sep a b :
  str_split sep (a +:+ b) = glue (str_split sep a) (str_split sep b).
Proof.
  induction a as [|c a IH].
  - rewrite str_app_nil. simpl. pose proof (split_nonempty sep b).
    destruct (str_split sep b); [done|reflexivity].
  - rewrite str_app_cons, !split_cons, IH.
    destruct (Ascii.eqb c sep).
    + rewrite glue_cons; [done|apply split_nonempty].
    + pose proof (split_nonempty sep a).
      destruct (str_split sep a) as [|h t]; [done|].
      by rewrite glue_head.
Qed.

Lemma split_all_space sep w :
  all_space w = true →
  Forall (λ line, all_space line = true) (str_split sep w).
Proof.
  induction w as [|c w IH]; [by repeat constructor|].
  simpl. intros [Hc Hw]%andb_true_iff. specialize (IH Hw).
  destruct (Ascii.eqb c sep); [by constructor|].
  pose proof (split_nonempty sep w).
  destruct (str_split sep w) as [|h t]; [done|].
  inversion_clear IH as [|?? Hh Ht]. constructor; [|done].
  simpl. by rewrite Hc.
Qed.

Lemma split_head_startswith sep c s :
  c ≠ sep →
  str_startswith c (hd EmptyString (str_split sep s)) = str_startswith c s.
Proof.
  intros Hne. destruct s as [|a s]; [done|]. simpl.
  destruct (Ascii.eqb_spec a sep) as [->|_].
  - simpl. symmetry. by apply Ascii.eqb_neq.
  - by destruct (str_split sep s).
Qed.

(** [split] cuts at every separator and nowhere else: no line holds
    one, and joining the lines with it gives the text back. *)
Lemma split_lines_free sep s :
  Forall (λ line, str_contains sep line = false) (str_split sep s).
Proof.
  induction s as [|c s IH]; [by repeat constructor|].
  rewrite split_cons. destruct (Ascii.eqb c sep) eqn:Hc; [by constructor|].
  pose proof (split_nonempty sep s).
  destruct (str_split sep s) as [|h t]; [done|].
  inversion_clear IH as [|?? Hh Ht]. constructor; [|done].
  simpl. by rewrite Hc.
Qed.

Lemma join_lines_head c h t :
  join_lines (String c h :: t) = String c (join_lines (h :: t)).
Proof. by destruct t. Qed.

Lemma join_split s : join_lines (str_split nl s) = s.
Proof.
  induction s as [|c s IH]; [done|].
  rewrite split_cons. pose proof (split_nonempty nl s).
  destruct (str_split nl s) as [|h t]; [done|].
  destruct (Ascii.eqb_spec c nl) as [->|_].
  - change (join_lines (EmptyString :: h :: t))
      with (String nl (join_lines (h :: t))).
    by rewrite IH.
  - by rewrite join_lines_head, IH.
Qed.

Lemma cut_some sep s :
  str_contains sep s = true → is_Some (str_cut sep s).
Proof.
  induction s as [|c s IH]; [done|]. simpl.
  destruct (Ascii.eqb c sep); [by eexists|].
  intros [[k v] ->]%IH. by eexists.
Qed.

Lemma cut_app_l sep a b k v :
  str_cut sep a = Some (k, v) → str_cut sep (a +:+ b) = Some (k, v +:+ b).
Proof.
  revert k. induction a as [|c a IH]; intros k; [done|].
  rewrite str_app_cons. simpl.
  destruct (Ascii.eqb c sep); [by intros [= <- <-]|].
  destruct (str_cut sep a) as [[k' v']|]; [|done].
  intros [= <- <-]. by rewrite (IH k').
Qed.

Lemma cut_app_r sep a b k v :
  str_contains sep a = false →
  str_cut sep b = Some (k, v) → str_cut sep (a +:+ b) = Some (a +:+ k, v).
Proof.
  intros Ha Hb. induction a as [|c a IH]; [done|].
  rewrite !str_app_cons. simpl in *.
  destruct (Ascii.eqb c sep); [done|]. by rewrite IH.
Qed.

(** Cutting [k=v] at the first [=] gives back [k] and [v] when [k] has
    none, whatever [v] holds. *)
Lemma cut_entry sep k v :
  str_contains sep k = false →
  str_cut sep (k +:+ String sep v) = Some (k, v).
Proof.
  intros Hk. rewrite (cut_app_r sep k (String sep v) EmptyString v Hk).
  - by rewrite str_app_empty_r.
  - simpl. by rewrite Ascii.eqb_refl.
Qed.

End strings.

(** ** The parser *)

Section parser.

Implicit Types (line s w x : string) (data : gmap string string).

Lemma spec_keep_alt line :
  spec_keep line
  = str_contains eq_sign line && negb (str_startswith hash line).
Proof.
  unfold spec_keep. destruct line as [|c line]; [done|].
  simpl. by rewrite andb_comm.
Qed.

(** The loop body never raises: a line holding [=] always splits in
    two. *)
Lemma parse_line_eq data line :
  parse_line data line
  = Ok (if spec_keep line
        then <[(spec_entry line).1 := (spec_entry line).2]> data
        else data).
Proof.
  unfold parse_line. rewrite <-spec_keep_alt.
  destruct (spec_keep line) eqn:Hk; [|done].
  rewrite spec_keep_alt in Hk. apply andb_true_iff in Hk as [Hc _].
  destruct (cut_some _ _ Hc) as [[k v] Hcut].
  unfold str_split1, spec_entry. by rewrite Hcut.
Qed.

Lemma parse_lines_eq data lines :
  parse_lines data lines = Ok (assign_all data (entries_of lines)).
Proof.
  revert data. induction lines as [|line lines IH]; intros data; [done|].
  cbn [parse_lines]. rewrite parse_line_eq, IH. f_equal.
  unfold entries_of. destruct (spec_keep line) eqn:Hk.
  - by rewrite filter_cons_True.
  - rewrite filter_cons_False; [done|]. by rewrite Hk.
Qed.

Lemma assign_all_eq data (entries : list (string * string)) :
  assign_all data entries = list_to_map (reverse entries) ∪ data.
Proof.
  revert data. induction entries as [|[k v] entries IH]; intros data.
  - simpl. by rewrite (left_id_L ∅ (∪)).
  - cbn [assign_all foldl]. fold (assign_all (<[k:=v]> data) entries).
    rewrite IH, reverse_cons, list_to_map_app. simpl.
    rewrite <-(assoc_L (∪)). f_equal.
    by rewrite <-insert_union_l, (left_id_L ∅ (∪)).
Qed.

Lemma parse_data_eq output :
  parse_data output = Ok (spec_parse (str_strip output)).
Proof.
  unfold parse_data, spec_parse, spec_entries.
  rewrite parse_lines_eq, assign_all_eq.
  by rewrite (right_id_L ∅ (∪)).
Qed.

(** *** Whitespace around a line *)

Lemma isspace_eq_sign : isspace eq_sign = false.
Proof. reflexivity. Qed.

Lemma isspace_hash : isspace hash = false.
Proof. reflexivity. Qed.

Lemma keep_all_space w : all_space w = true → spec_keep w = false.
Proof.
  intros Hw. rewrite spec_keep_alt.
  by rewrite (all_space_contains _ _ isspace_eq_sign Hw).
Qed.

Lemma keep_app_space_r x w :
  all_space w = true → spec_keep (x +:+ w) = spec_keep x.
Proof.
  intros Hw. rewrite !spec_keep_alt, str_contains_app.
  rewrite (all_space_contains _ _ isspace_eq_sign Hw), orb_false_r.
  by destruct x.
Qed.

Lemma entry_app_space_r x w :
  all_space w = true → spec_keep x = true →
  spec_entry (x +:+ w) = spec_entry x.
Proof.
  intros Hw Hk. rewrite spec_keep_alt in Hk.
  apply andb_true_iff in Hk as [Hc _].
  destruct (cut_some _ _ Hc) as [[k v] Hcut].
  unfold spec_entry. rewrite (cut_app_l _ _ _ _ _ Hcut), Hcut.
  by rewrite strip_app_space_r.
Qed.

Lemma keep_app_space_l w x :
  all_space w = true → str_startswith hash x = false →
  spec_keep (w +:+ x) = spec_keep x.
Proof.
  intros Hw Hx. rewrite !spec_keep_alt, str_contains_app.
  rewrite (all_space_contains _ _ isspace_eq_sign Hw), orb_false_l, Hx.
  f_equal. destruct w as [|c w]; [by rewrite str_app_nil, Hx|].
  rewrite str_app_cons.
  exact (f_equal negb
           (all_space_startswith _ (String c w) isspace_hash Hw)).
Qed.

Lemma entry_app_space_l w x :
  all_space w = true → spec_keep x = true →
  spec_entry (w +:+ x) = spec_entry x.
Proof.
  intros Hw Hk. rewrite spec_keep_alt in Hk.
  apply andb_true_iff in Hk as [Hc _].
  destruct (cut_some _ _ Hc) as [[k v] Hcut].
  unfold spec_entry.
  rewrite (cut_app_r _ _ _ _ _
             (all_space_contains _ _ isspace_eq_sign Hw) Hcut), Hcut.
  by rewrite strip_app_space_l.
Qed.

Lemma entries_of_cons line lines :
  entries_of (line :: lines)
  = (if spec_keep line then [spec_entry line] else []) ++ entries_of lines.
Proof.
  unfold entries_of. destruct (spec_keep line) eqn:Hk.
  - by rewrite filter_cons_True.
  - rewrite filter_cons_False; [done|]. by rewrite Hk.
Qed.

Lemma entries_of_all_space lines :
  Forall (λ line, all_space line = true) lines → entries_of lines = [].
Proof.
  induction 1 as [|line lines Hw _ IH]; [done|].
  by rewrite entries_of_cons, (keep_all_space _ Hw), IH.
Qed.

(** Whitespace appended to a text adds no entry and changes none. *)
Lemma entries_glue_r la lb :
  la ≠ [] → Forall (λ line, all_space line = true) lb →
  entries_of (glue la lb) = entries_of la.
Proof.
  intros Hla Hlb. induction la as [|x la IH]; [done|].
  destruct la as [|y la].
  - destruct lb as [|hb tb]; [done|]. simpl.
    inversion_clear Hlb as [|?? Hh Ht].
    rewrite !entries_of_cons, (entries_of_all_space _ Ht).
    rewrite (keep_app_space_r _ _ Hh).
    destruct (spec_keep x) eqn:Hk; [|done].
    by rewrite (entry_app_space_r _ _ Hh Hk).
  - rewrite glue_cons by done. rewrite !(entries_of_cons x).
    by rewrite IH.
Qed.

(** Whitespace put before a text adds no entry and changes none,
    unless the text begins with [#]. *)
Lemma entries_glue_l la lb :
  la ≠ [] → Forall (λ line, all_space line = true) la →
  lb ≠ [] → str_startswith hash (hd EmptyString lb) = false →
  entries_of (glue la lb) = entries_of lb.
Proof.
  intros Hla Hws Hlb Hhash. induction la as [|x la IH]; [done|].
  inversion_clear Hws as [|?? Hx Hrest].
  destruct la as [|y la].
  - destruct lb as [|hb tb]; [done|]. simpl in *.
    rewrite !entries_of_cons, (keep_app_space_l _ _ Hx Hhash).
    destruct (spec_keep hb) eqn:Hk; [|done].
    by rewrite (entry_app_space_l _ _ Hx Hk).
  - rewrite glue_cons by done.
    rewrite entries_of_cons, (keep_all_space _ Hx). by rewrite IH.
Qed.

Lemma spec_entries_app_space_r s w :
  all_space w = true → spec_entries (s +:+ w) = spec_entries s.
Proof.
  intros Hw. unfold spec_entries. fold (entries_of (str_split nl (s +:+ w))).
  fold (entries_of (str_split nl s)). rewrite split_app.
  apply entries_glue_r; [apply split_nonempty|by apply split_all_space].
Qed.

Lemma spec_entries_app_space_l w s :
  all_space w = true → str_startswith hash s = false →
  spec_entries (w +:+ s) = spec_entries s.
Proof.
  intros Hw Hs. unfold spec_entries.
  fold (entries_of (str_split nl (w +:+ s))).
  fold (entries_of (str_split nl s)). rewrite split_app.
  apply entries_glue_l;
    [apply split_nonempty|by apply split_all_space|apply split_nonempty|].
  by rewrite split_head_startswith.
Qed.

(** Stripping the whole text first makes no difference, unless its
    first visible character is [#]. *)
Lemma spec_entries_strip s :
  str_startswith hash (str_lstrip s) = false →
  spec_entries (str_strip s) = spec_entries s.
Proof.
  intros Hs.
  destruct (lstrip_split s) as (w1 & Hw1 & Hs1).
  destruct (rstrip_split (str_lstrip s)) as (w2 & Hw2 & Hs2).
  trans (spec_entries (str_lstrip s)).
  - unfold str_strip.
    by rewrite <-(spec_entries_app_space_r _ w2 Hw2), <-Hs2.
  - by rewrite <-(spec_entries_app_space_l w1 _ Hw1 Hs), <-Hs1.
Qed.

(** Last value wins. *)
Lemma list_to_map_reverse_lookup (l : list (string * string)) k v :
  (list_to_map (reverse l) : gmap string string) !! k = Some v
  ↔ ∃ before after, l = before ++ (k, v) :: after ∧ k ∉ after.*1.
Proof.
  induction l as [|[k' v'] l IH] using rev_ind.
  - split; [done|]. intros (before & after & Heq & _).
    by destruct before.
  - rewrite reverse_snoc. cbn [list_to_map foldr uncurry].
    destruct (decide (k' = k)) as [->|Hne].
    + rewrite lookup_insert_eq. split.
      * intros [= ->]. exists l, []. split; [done|]. apply not_elem_of_nil.
      * intros (before & after & Heq & Hnot).
        destruct after as [|kv after _] using rev_ind.
        { apply (app_inj_tail l before) in Heq as [_ [= ->]]. done. }
        rewrite app_comm_cons, app_assoc in Heq.
        apply app_inj_tail in Heq as [_ <-].
        destruct Hnot. rewrite fmap_app. apply elem_of_app. right.
        simpl. apply list_elem_of_singleton. done.
    + rewrite lookup_insert_ne by done. rewrite IH. split.
      * intros (before & after & -> & Hnot).
        exists before, (after ++ [(k', v')]). split.
        { by rewrite <-app_assoc. }
        rewrite fmap_app. intros [?|Hin]%elem_of_app; [done|].
        simpl in Hin. apply list_elem_of_singleton in Hin. done.
      * intros (before & after & Heq & Hnot).
        destruct after as [|kv after _] using rev_ind.
        { apply (app_inj_tail l before) in Heq as [_ [= -> ->]]. done. }
        rewrite app_comm_cons, app_assoc in Heq.
        apply app_inj_tail in Heq as [-> <-].
        exists before, after. split; [done|].
        intros Hin. apply Hnot. rewrite fmap_app. apply elem_of_app.
        by left.
Qed.

End parser.

(** C4 (amended). The parser never fails.  It first strips leading and
    trailing whitespace from the whole input; the result is then read
    line by line: split on newlines, a line that is empty, starts
    with [#] or has no [=] is skipped, every other line is cut at its
    first [=] only (so a value may hold [=]), key and value are trimmed,
    and of several lines with one key the last wins.  The initial strip
    matters only for an input whose first visible character is [#]: on
    every other input the result is the same without it.  Empty input
    gives the empty mapping. *)
Theorem parser_strips_then_reads_lines :
  (∀ output, parse_data output = Ok (spec_parse (str_strip output)))
  ∧ (∀ output,
       str_startswith hash (str_lstrip output) = false →
       parse_data output = Ok (spec_parse output))
  ∧ (∀ k v,
       str_contains eq_sign k = false →
       spec_entry (k +:+ String eq_sign v) = (str_strip k, str_strip v))
  ∧ (∀ text k v,
       spec_parse text !! k = Some v
       ↔ ∃ before after,
           spec_entries text = before ++ (k, v) :: after ∧ k ∉ after.*1)
  ∧ parse_data EmptyString = Ok ∅.
Proof.
  split_and!.
  - apply parse_data_eq.
  - intros output Hhash. rewrite parse_data_eq. unfold spec_parse.
    by rewrite (spec_entries_strip _ Hhash).
  - intros k v Hk. unfold spec_entry. by rewrite (cut_entry _ _ _ Hk).
  - intros text k v. apply list_to_map_reverse_lookup.
  - reflexivity.
Qed.

Lemma parser_strips_then_reads_lines_witness :
  parse_data (stdout scenario_B) = Ok (spec_parse (stdout scenario_B))
  ∧ spec_entry ("PLAN " +:+ String eq_sign " a=b ") = ("PLAN", "a=b").
Proof.
  split.
  - apply (proj1 (proj2 parser_strips_then_reads_lines)).
    vm_compute. reflexivity.
  - apply (proj1 (proj2 (proj2 parser_strips_then_reads_lines))
             "PLAN " " a=b ").
    vm_compute. reflexivity.
Defined.

(** C4, as first stated, fails on an indented first line that begins
    with [#]: read line by line it is an entry with key "#a", but the
    parser strips the text first and then skips it as a comment.  The
    same line further down is kept. *)
Lemma parser_counterexample :
  parse_data " #a=b" = Ok ∅
  ∧ spec_parse " #a=b" = {["#a" := "b"]}
  ∧ parse_data " #a=b" ≠ Ok (spec_parse " #a=b")
  ∧ parse_data ("x=1" +:+ NL +:+ " #a=b")
    = Ok (spec_parse ("x=1" +:+ NL +:+ " #a=b")).
Proof.
  split_and!; try (vm_compute; reflexivity).
  vm_compute. discriminate.
Qed.

(** ** Serialising and parsing back *)

Section roundtrip.

Implicit Types (k v line : string) (entries : list (string * string)).

Lemma join_lines_more line line' lines :
  join_lines (line :: line' :: lines)
  = line +:+ String nl (join_lines (line' :: lines)).
Proof. reflexivity. Qed.

Lemma split_join lines :
  Forall (λ line, str_contains nl line = false) lines → lines ≠ [] →
  str_split nl (join_lines lines) = lines.
Proof.
  induction 1 as [|line lines Hline Hrest IH]; [done|]. intros _.
  destruct lines as [|line' lines].
  - by apply split_absent.
  - rewrite join_lines_more, split_app, (split_absent _ _ Hline).
    rewrite split_cons, Ascii.eqb_refl, IH by done.
    cbn [glue]. by rewrite str_app_empty_r.
Qed.

Lemma serialize_entry_lines entries :
  Forall plain_entry entries →
  Forall (λ line, str_contains nl line = false)
    (serialize_entry <$> entries).
Proof.
  induction 1 as [|[k v] entries (_ & Hk & _ & _ & Hv & _) _ IH];
    [done|].
  constructor; [|done]. unfold serialize_entry. simpl in *.
  by rewrite str_contains_app, Hk; simpl; rewrite Hv.
Qed.

Lemma serialize_entry_keep k v :
  str_startswith hash k = false →
  spec_keep (serialize_entry (k, v)) = true.
Proof.
  intros Hk. rewrite spec_keep_alt. unfold serialize_entry. simpl.
  rewrite str_contains_app. simpl. rewrite orb_true_r.
  destruct k as [|c k]; [done|]. rewrite str_app_cons. simpl in *.
  by rewrite Hk.
Qed.

Lemma entries_of_serialized entries :
  Forall plain_entry entries →
  entries_of (serialize_entry <$> entries) = entries.
Proof.
  induction 1 as [|[k v] entries (Heq & _ & Hhash & Hk & _ & Hv) _ IH];
    [done|].
  cbn [fst snd] in *. rewrite fmap_cons, entries_of_cons, IH.
  rewrite (serialize_entry_keep _ _ Hhash).
  unfold serialize_entry, spec_entry. cbn [fst snd].
  by rewrite (cut_entry _ _ _ Heq), Hk, Hv.
Qed.

Lemma join_lines_cons line lines :
  ∃ rest, join_lines (line :: lines) = line +:+ rest.
Proof.
  destruct lines as [|line' lines].
  - exists EmptyString. simpl. by rewrite str_app_empty_r.
  - by eexists.
Qed.

Lemma tail_all_space (trailing : bool) :
  all_space (if trailing then String nl EmptyString else EmptyString)
  = true.
Proof. by destruct trailing. Qed.

(** The serialised text does not begin, after whitespace, with [#]. *)
Lemma serialize_first_visible trailing entries :
  Forall plain_entry entries →
  str_startswith hash (str_lstrip (serialize trailing entries)) = false.
Proof.
  intros Hall. unfold serialize.
  destruct Hall as [|[k v] entries (_ & _ & Hhash & Hk & _) _].
  - simpl. rewrite str_app_nil.
    by rewrite (lstrip_all_space _ (tail_all_space trailing)).
  - rewrite fmap_cons.
    destruct (join_lines_cons (serialize_entry (k, v))
                (serialize_entry <$> entries)) as [rest ->].
    unfold serialize_entry. simpl in *.
    apply strip_fixed_lstrip in Hk.
    destruct k as [|c k]; [done|].
    pose proof (lstrip_head (String c k)) as Hc. rewrite Hk in Hc.
    rewrite !str_app_cons. simpl. by rewrite Hc.
Qed.

Lemma spec_entries_serialize trailing entries :
  Forall plain_entry entries →
  spec_entries (serialize trailing entries) = entries.
Proof.
  intros Hall. unfold serialize.
  rewrite (spec_entries_app_space_r _ _ (tail_all_space trailing)).
  unfold spec_entries.
  fold (entries_of (str_split nl (join_lines (serialize_entry <$> entries)))).
  destruct entries as [|kv entries]; [done|].
  rewrite split_join;
    [by apply entries_of_serialized|by apply serialize_entry_lines|done].
Qed.

Lemma parse_serialize trailing entries :
  Forall plain_entry entries →
  parse_data (serialize trailing entries)
  = Ok (list_to_map (reverse entries)).
Proof.
  intros Hall. rewrite parse_data_eq. unfold spec_parse.
  rewrite (spec_entries_strip _ (serialize_first_visible _ _ Hall)).
  by rewrite (spec_entries_serialize _ _ Hall).
Qed.

End roundtrip.

(** C8 (amended). Take a mapping in which no key contains [=] or a
    newline, no key starts with [#], no value contains a newline, and
    neither keys nor values have leading or trailing whitespace.
    Writing its entries as [KEY=value] lines, one per entry, in any
    order, with or without a final newline, and parsing the text gives
    the mapping back. *)
Theorem serialize_then_parse
  (m : gmap string string) (entries : list (string * string))
  (trailing : bool) :
  entries ≡ₚ map_to_list m →
  (∀ k v, m !! k = Some v →
     str_contains eq_sign k = false ∧ str_contains nl k = false
     ∧ str_startswith hash k = false ∧ str_strip k = k
     ∧ str_contains nl v = false ∧ str_strip v = v) →
  parse_data (serialize trailing entries) = Ok m.
Proof.
  intros Hperm Hplain.
  rewrite parse_serialize.
  - f_equal. rewrite <-(list_to_map_to_list m).
    apply list_to_map_proper.
    + rewrite reverse_Permutation, Hperm. apply NoDup_fst_map_to_list.
    + by rewrite reverse_Permutation.
  - apply Forall_forall. intros [k v] Hin.
    apply Hplain. apply elem_of_map_to_list. by rewrite <-Hperm.
Qed.

Lemma serialize_then_parse_witness :
  parse_data
    (serialize true [("PLAN_TYPE", "max=20x"); ("SESSION_REMAINING", "42")])
  = Ok (<["PLAN_TYPE" := "max=20x"]> (<["SESSION_REMAINING" := "42"]> ∅)).
Proof.
  apply serialize_then_parse.
  - vm_compute. apply perm_swap.
  - intros k v Hkv.
    destruct (decide (k = "PLAN_TYPE")) as [->|Hk1].
    + rewrite lookup_insert_eq in Hkv. injection Hkv as <-.
      vm_compute. by split_and!.
    + rewrite lookup_insert_ne in Hkv by done.
      destruct (decide (k = "SESSION_REMAINING")) as [->|Hk2].
      * rewrite lookup_insert_eq in Hkv. injection Hkv as <-.
        vm_compute. by split_and!.
      * rewrite lookup_insert_ne in Hkv by done. done.
Defined.

(** C8, as first stated, fails: with keys free of [=] and newlines, a
    value with surrounding whitespace comes back trimmed, a value with a
    newline is cut short, and an entry whose key starts with [#] is
    lost. *)
Lemma roundtrip_counterexample :
  parse_data (serialize true (map_to_list {["a" := " b"]}))
  ≠ Ok {["a" := " b"]}
  ∧ parse_data (serialize true
                  (map_to_list {["a" := "b" +:+ NL +:+ "c"]}))
    ≠ Ok {["a" := "b" +:+ NL +:+ "c"]}
  ∧ parse_data (serialize true (map_to_list {["#a" := "b"]}))
    ≠ Ok {["#a" := "b"]}.
Proof. split_and!; vm_compute; discriminate. Qed.

(** * Further properties of the fetcher *)

(** ** One fetch attempt, whatever its outcome *)

Lemma or_else_same x : or_else x x = x.
Proof. by destruct x as [[]|]. Qed.

(** What every branch of the [try] statement has in common. *)
Lemma do_fetch_try_shape clock n r w :
  ∃ self' status err k,
    _do_fetch_try clock n r w
    = (Ok tt, mk_world self' (calls w ++ notified self' status err)
                (ticks w + k))
    ∧ is_fetching self' = false
    ∧ fetch_count self' = fetch_count (self_ w)
    ∧ on_update self' = on_update (self_ w)
    ∧ _schedule_on_main_thread self' = _schedule_on_main_thread (self_ w)
    ∧ or_else err (last_error self') = last_error self'
    ∧ (is_stale self' = true ↔ is_Some (last_error self'))
    ∧ (k = 1 ∨ k = 2)%nat
    ∧ expected_status status
    ∧ String.prefix "Fetching" status = false.
Proof.
  destruct w as [self cs t]. cbn [self_ calls ticks].
  assert (∀ msg label,
    expected_status (label +:+ strftime_HMS (clock t)) →
    String.prefix "Fetching" (label +:+ strftime_HMS (clock t)) = false →
    ∃ self' status err k,
      (Ok tt,
       mk_world (failed msg (self_ (landed (mk_world self cs t))))
         (cs ++ notified (failed msg (self_ (landed (mk_world self cs t))))
                  (label +:+ strftime_HMS (clock t)) (Some msg))
         (S t))
      = (Ok tt, mk_world self' (cs ++ notified self' status err) (t + k))
      ∧ is_fetching self' = false
      ∧ fetch_count self' = fetch_count self
      ∧ on_update self' = on_update self
      ∧ _schedule_on_main_thread self' = _schedule_on_main_thread self
      ∧ or_else err (last_error self') = last_error self'
      ∧ (is_stale self' = true ↔ is_Some (last_error self'))
      ∧ (k = 1 ∨ k = 2)%nat
      ∧ expected_status status
      ∧ String.prefix "Fetching" status = false) as Hfail.
  { intros msg label Hst Hpre. eexists _, _, _, 1%nat.
    split; [by rewrite Nat.add_1_r|].
    destruct self. cbn. split_and!; try done; [by destruct msg|by left]. }
  destruct r as [p|[m|ty m]].
  - destruct (decide (returncode p = 0)) as [Hrc|Hrc].
    + rewrite (do_fetch_try_parse _ _ _ _ Hrc).
      destruct (parse_data (stdout p)) as [data|e] eqn:Hp.
      * destruct (has_valid_data data) eqn:Hv.
        -- rewrite (parse_output_valid _ _ _ data _ Hp Hv).
           eexists _, _, _, 2%nat. split.
           { cbn [landed self_ calls ticks]. by rewrite Nat.add_comm. }
           destruct self. cbn. split_and!; try done; [by right|].
           eexists. right. left. reflexivity.
        -- rewrite (parse_output_invalid _ _ _ data _ Hp Hv).
           apply Hfail; [|done]. eexists. right. right. left. reflexivity.
      * pose proof (parse_data_eq (stdout p)). congruence.
    + rewrite (do_fetch_try_exit _ _ _ _ Hrc).
      apply Hfail; [|done]. eexists. do 3 right. left. reflexivity.
  - rewrite do_fetch_try_timeout.
    apply Hfail; [|done]. eexists. do 4 right. reflexivity.
  - rewrite do_fetch_try_exception.
    apply Hfail; [|done]. eexists. do 3 right. left. reflexivity.
Qed.

Lemma do_fetch_raises clock w e msg label :
  _do_fetch_try clock (fetch_count (self_ w) + 1) (RunRaises e)
    (started clock w)
  = (Ok tt,
     mk_world (failed msg (self_ (landed (started clock w))))
       (calls (started clock w)
        ++ notified (failed msg (self_ (landed (started clock w))))
             (label +:+ strftime_HMS (clock (ticks (started clock w))))
             (Some msg))
       (S (ticks (started clock w)))) →
  msg ≠ EmptyString →
  ∃ w',
    _do_fetch clock (RunRaises e) w = (Ok tt, w')
    ∧ last_error (self_ w') = Some msg
    ∧ is_stale (self_ w') = true
    ∧ is_fetching (self_ w') = false
    ∧ last_good_data (self_ w') = last_good_data (self_ w)
    ∧ last_successful_fetch (self_ w') = last_successful_fetch (self_ w)
    ∧ calls w'
      = calls (started clock w)
        ++ (if on_update (self_ w)
            then [mk_call (_schedule_on_main_thread (self_ w))
                    {| snap_data := last_good_data (self_ w);
                       snap_is_stale := true;
                       snap_error := Some msg;
                       snap_status :=
                         label +:+ strftime_HMS (clock (S (ticks w)));
                       snap_fetch_count := fetch_count (self_ w) + 1;
                       snap_last_successful_fetch :=
                         last_successful_fetch (self_ w);
                       snap_is_fetching := false |}]
            else []).
Proof.
  intros Heq Hmsg. rewrite do_fetch_eq, Heq. eexists; split; [reflexivity|].
  rewrite started_eq. destruct w as [[] cs t]. cbn.
  split_and!; try done. unfold notified. cbn.
  destruct on_update0; [|done]. by destruct msg.
Qed.

(** X1. When [subprocess.run] raises [TimeoutExpired], the fetch ends
    normally with [last_error] "Timeout after 90s", [is_stale] set,
    [is_fetching] cleared and the cached data and its time untouched;
    a registered listener receives, after the "Fetching" call, one call
    with status "Timeout @ <time>" carrying that state. *)
Theorem timeout_is_reported
  (clock : nat → datetime) (w : World) (m : string) :
  ∃ w',
    _do_fetch clock (RunRaises (TimeoutExpired m)) w = (Ok tt, w')
    ∧ last_error (self_ w') = Some "Timeout after 90s"
    ∧ is_stale (self_ w') = true
    ∧ is_fetching (self_ w') = false
    ∧ last_good_data (self_ w') = last_good_data (self_ w)
    ∧ last_successful_fetch (self_ w') = last_successful_fetch (self_ w)
    ∧ calls w'
      = calls (started clock w)
        ++ (if on_update (self_ w)
            then [mk_call (_schedule_on_main_thread (self_ w))
                    {| snap_data := last_good_data (self_ w);
                       snap_is_stale := true;
                       snap_error := Some "Timeout after 90s";
                       snap_status :=
                         "Timeout @ " +:+ strftime_HMS (clock (S (ticks w)));
                       snap_fetch_count := fetch_count (self_ w) + 1;
                       snap_last_successful_fetch :=
                         last_successful_fetch (self_ w);
                       snap_is_fetching := false |}]
            else []).
Proof.
  apply (do_fetch_raises clock w _ "Timeout after 90s" "Timeout @ ");
    [|done].
  by rewrite do_fetch_try_timeout.
Qed.

(** X2. When [subprocess.run] raises any other exception (the script
    could not be launched, say), the fetch ends normally with
    [last_error] "<class name>: <message>", [is_stale] set,
    [is_fetching] cleared and the cached data untouched; the listener's
    call has status "Error @ <time>". *)
Theorem launch_failure_is_reported
  (clock : nat → datetime) (w : World) (ty m : string) :
  ∃ w',
    _do_fetch clock (RunRaises (Exception ty m)) w = (Ok tt, w')
    ∧ last_error (self_ w') = Some (ty +:+ ": " +:+ m)
    ∧ is_stale (self_ w') = true
    ∧ is_fetching (self_ w') = false
    ∧ last_good_data (self_ w') = last_good_data (self_ w)
    ∧ last_successful_fetch (self_ w') = last_successful_fetch (self_ w)
    ∧ calls w'
      = calls (started clock w)
        ++ (if on_update (self_ w)
            then [mk_call (_schedule_on_main_thread (self_ w))
                    {| snap_data := last_good_data (self_ w);
                       snap_is_stale := true;
                       snap_error := Some (ty +:+ ": " +:+ m);
                       snap_status :=
                         "Error @ " +:+ strftime_HMS (clock (S (ticks w)));
                       snap_fetch_count := fetch_count (self_ w) + 1;
                       snap_last_successful_fetch :=
                         last_successful_fetch (self_ w);
                       snap_is_fetching := false |}]
            else []).
Proof.
  apply (do_fetch_raises clock w _ (ty +:+ ": " +:+ m) "Error @ ").
  - by rewrite do_fetch_try_exception.
  - destruct ty; discriminate.
Qed.


(** X4. With a listener registered, the last call of a fetch attempt
    describes the state the attempt leaves behind: its data, staleness,
    error, count, time of last success and in-flight flag are those of
    the object, and it went through the scheduler exactly when one is
    set. *)
Theorem last_call_mirrors_state
  (clock : nat → datetime) (r : run_outcome) (w : World) :
  on_update (self_ w) = true →
  let w' := (_do_fetch clock r w).2 in
  ∃ status,
    last (calls w')
    = Some (mk_call (_schedule_on_main_thread (self_ w'))
              {| snap_data := last_good_data (self_ w');
                 snap_is_stale := is_stale (self_ w');
                 snap_error := last_error (self_ w');
                 snap_status := status;
                 snap_fetch_count := fetch_count (self_ w');
                 snap_last_successful_fetch :=
                   last_successful_fetch (self_ w');
                 snap_is_fetching := is_fetching (self_ w') |})
    ∧ expected_status status
    ∧ String.prefix "Fetching" status = false.
Proof.
  intros Hu. cbv zeta. rewrite do_fetch_eq.
  destruct (do_fetch_try_shape clock (fetch_count (self_ w) + 1) r
              (started clock w))
    as (self' & status & err & k & -> & _ & _ & Hu' & _ & Hor & _ & _
        & Hst & Hpre).
  exists status. split; [|done]. cbn [snd calls self_].
  unfold notified. rewrite Hu'.
  replace (on_update (self_ (started clock w))) with true
    by (rewrite started_eq; by destruct w as [[]]).
  rewrite last_snoc. unfold snapshot. by rewrite Hor.
Qed.

Lemma last_call_mirrors_state_witness :
  ∃ status,
    last (calls (_do_fetch sample_clock (Completed scenario_B)
                   fresh_world).2)
    = Some (mk_call false
              {| snap_data := None;
                 snap_is_stale := true;
                 snap_error := Some "Got ?? values (parsed 2 keys)";
                 snap_status := status;
                 snap_fetch_count := 1;
                 snap_last_successful_fetch := None;
                 snap_is_fetching := false |})
    ∧ expected_status status
    ∧ String.prefix "Fetching" status = false.
Proof.
  apply (last_call_mirrors_state sample_clock (Completed scenario_B)
           fresh_world).
  reflexivity.
Defined.

(** ** Invariants of the reachable states *)

Lemma step_cases clock s e s' :
  step clock s e = Some s' →
  (e = Start
   ∧ s' = mk_system (started clock (world s))
            (in_flight s ++ [fetch_count (fetcher s) + 1]))
  ∨ (∃ i r n,
       e = Finish i r ∧ in_flight s !! i = Some n
       ∧ s' = mk_system (_do_fetch_try clock n r (world s)).2
                (delete i (in_flight s)))
  ∨ (e = SetScheduler
     ∧ s' = mk_system
              (mk_world (set_main_thread_scheduler (self_ (world s)))
                 (calls (world s)) (ticks (world s)))
              (in_flight s)).
Proof.
  destruct e as [|i r|]; cbn [step].
  - unfold started. rewrite do_fetch_start_eq. intros [= <-]. by left.
  - destruct (in_flight s !! i) as [n|] eqn:Hi; [|done].
    intros [= <-]. right. left. by exists i, r, n.
  - intros [= <-]. by do 2 right.
Qed.

(** Induction over the states reached from the initial one. *)
Lemma run_ind clock listener (P : list event → System → Prop) :
  P [] (initial listener) →
  (∀ tr s e s',
     run clock (initial listener) tr = Some s → P tr s →
     step clock s e = Some s' → P (tr ++ [e]) s') →
  ∀ tr s, run clock (initial listener) tr = Some s → P tr s.
Proof.
  intros Hinit Hstep tr.
  induction tr as [|e tr IH] using rev_ind; intros s.
  - by intros [= <-].
  - rewrite run_snoc.
    destruct (run clock (initial listener) tr) as [s0|] eqn:Hrun; [|done].
    intros Hs. apply (Hstep tr s0 e s); [done|by apply IH|done].
Qed.

Lemma starts_snoc tr e :
  starts (tr ++ [e]) = (starts tr + if is_start e then 1 else 0)%nat.
Proof.
  unfold starts. rewrite filter_app, length_app. f_equal.
  by destruct e.
Qed.

Lemma finishes_snoc tr e :
  finishes (tr ++ [e]) = (finishes tr + if is_finish e then 1 else 0)%nat.
Proof.
  unfold finishes. rewrite filter_app, length_app. f_equal.
  by destruct e.
Qed.

Lemma last_is_start_snoc tr e :
  last_is_start (tr ++ [e])
  = if is_start e || is_finish e then is_start e else last_is_start tr.
Proof.
  induction tr as [|e' tr IH].
  - simpl. by destruct e.
  - cbn [app last_is_start]. rewrite IH, existsb_app. simpl.
    rewrite orb_false_r.
    destruct (is_start e || is_finish e); [by rewrite orb_true_r|].
    by rewrite orb_false_r.
Qed.

Lemma started_self clock w :
  self_ (started clock w)
  = set_is_fetching true
      (set_fetch_count (fetch_count (self_ w) + 1) (self_ w)).
Proof. by rewrite started_eq. Qed.

Lemma started_calls clock w :
  ∃ status,
    calls (started clock w)
    = calls w ++ notified (self_ (started clock w)) status None
    ∧ expected_status status.
Proof.
  rewrite started_eq. cbv zeta. cbn [calls self_].
  eexists. split; [reflexivity|]. eexists. left. reflexivity.
Qed.

(** X5. In every reachable state [fetch_count] is the number of fetches
    started so far, the workers still waiting for their subprocess are
    the started ones that have not finished, and each of them holds a
    fetch number between 1 and [fetch_count]. *)
Theorem fetch_count_counts_starts
  (clock : nat → datetime) (listener : bool) (tr : list event) (s : System) :
  run clock (initial listener) tr = Some s →
  fetch_count (fetcher s) = Z.of_nat (starts tr)
  ∧ (length (in_flight s) + finishes tr = starts tr)%nat
  ∧ Forall (λ n, 1 ≤ n ≤ fetch_count (fetcher s)) (in_flight s).
Proof.
  revert tr s. apply run_ind; cbv beta; [split_and!; [done|done|constructor]|].
  intros tr s e s' _ (Hc & Hl & Hn) Hstep.
  rewrite starts_snoc, finishes_snoc.
  destruct (step_cases _ _ _ _ Hstep)
    as [[-> ->]|[(i & r & n & -> & Hi & ->)|[-> ->]]];
    unfold fetcher in *; cbn [world in_flight is_start is_finish].
  - rewrite started_self, length_app. destruct (world s) as [[] cs t].
    cbn in *. split_and!; [lia|lia|].
    apply Forall_app. split.
    + eapply Forall_impl; [exact Hn|]. cbn. lia.
    + repeat constructor; lia.
  - destruct (do_fetch_try_shape clock n r (world s))
      as (self' & status & err & k & -> & _ & Hfc & _).
    cbn [snd self_]. rewrite Hfc.
    rewrite length_delete by by eexists.
    apply lookup_lt_Some in Hi as Hlt.
    split_and!; [lia|lia|by apply Forall_delete].
  - destruct (world s) as [[] cs t]. cbn in *.
    split_and!; [lia|lia|done].
Qed.

Lemma fetch_count_counts_starts_witness :
  ∃ s,
    run sample_clock (initial true) sample_trace = Some s
    ∧ fetch_count (fetcher s) = Z.of_nat (starts sample_trace)
    ∧ (length (in_flight s) + finishes sample_trace
       = starts sample_trace)%nat
    ∧ Forall (λ n, 1 ≤ n ≤ fetch_count (fetcher s)) (in_flight s).
Proof.
  eexists. split; [vm_compute; reflexivity|].
  apply (fetch_count_counts_starts sample_clock true sample_trace).
  vm_compute. reflexivity.
Defined.

(** X6. In every reachable state the object is stale exactly when an
    error is recorded, and it has cached data exactly when it has a time
    of last success. *)
Theorem stale_iff_error_recorded
  (clock : nat → datetime) (listener : bool) (tr : list event) (s : System) :
  run clock (initial listener) tr = Some s →
  (is_stale (fetcher s) = true ↔ is_Some (last_error (fetcher s)))
  ∧ (is_Some (last_good_data (fetcher s))
     ↔ is_Some (last_successful_fetch (fetcher s))).
Proof.
  revert tr s. apply run_ind; cbv beta.
  { cbn. split; split; try done; by intros [? [=]]. }
  intros tr s e s' _ [Hs Hd] Hstep.
  destruct (step_cases _ _ _ _ Hstep)
    as [[-> ->]|[(i & r & n & -> & Hi & ->)|[-> ->]]];
    unfold fetcher in *; cbn [world].
  - rewrite started_self. by destruct (world s) as [[] cs t].
  - destruct (do_fetch_try_cases clock n r (world s))
      as [(p & data & _ & _ & _ & _ & _ & _ & ->)|(msg & _ & _ & ->)];
      destruct (world s) as [[] cs t]; cbn in *.
    + split; split; try done; try (by eexists); try (by intros [? [=]]).
    + split; [|done]. split; [by eexists|done].
  - by destruct (world s) as [[] cs t].
Qed.

Lemma stale_iff_error_recorded_witness :
  ∃ s,
    run sample_clock (initial true) sample_trace = Some s
    ∧ (is_stale (fetcher s) = true ↔ is_Some (last_error (fetcher s)))
    ∧ (is_Some (last_good_data (fetcher s))
       ↔ is_Some (last_successful_fetch (fetcher s))).
Proof.
  eexists. split; [vm_compute; reflexivity|].
  apply (stale_iff_error_recorded sample_clock true sample_trace).
  vm_compute. reflexivity.
Defined.

(** X7. The listener is never called when none is registered.  When one
    is, the calls made directly all come before the calls made through
    the main-thread scheduler, and none goes through the scheduler
    before one is set. *)
Theorem direct_calls_precede_scheduled
  (clock : nat → datetime) (listener : bool) (tr : list event) (s : System) :
  run clock (initial listener) tr = Some s →
  ∃ direct scheduled,
    calls (world s) = direct ++ scheduled
    ∧ Forall (λ c, via_scheduler c = false) direct
    ∧ Forall (λ c, via_scheduler c = true) scheduled
    ∧ (_schedule_on_main_thread (fetcher s) = false → scheduled = [])
    ∧ (listener = false → calls (world s) = []).
Proof.
  intros Hrun.
  cut (on_update (fetcher s) = listener
       ∧ ∃ direct scheduled,
           calls (world s) = direct ++ scheduled
           ∧ Forall (λ c, via_scheduler c = false) direct
           ∧ Forall (λ c, via_scheduler c = true) scheduled
           ∧ (_schedule_on_main_thread (fetcher s) = false → scheduled = [])
           ∧ (listener = false → calls (world s) = [])); [by intros [_ ?]|].
  revert tr s Hrun. apply run_ind; cbv beta.
  { split; [done|]. by exists [], []. }
  assert (∀ (self' : UsageFetcher) cs status err direct scheduled,
    on_update self' = listener →
    cs = direct ++ scheduled →
    Forall (λ c, via_scheduler c = false) direct →
    Forall (λ c, via_scheduler c = true) scheduled →
    (_schedule_on_main_thread self' = false → scheduled = []) →
    (listener = false → cs = []) →
    ∃ direct' scheduled',
      cs ++ notified self' status err = direct' ++ scheduled'
      ∧ Forall (λ c, via_scheduler c = false) direct'
      ∧ Forall (λ c, via_scheduler c = true) scheduled'
      ∧ (_schedule_on_main_thread self' = false → scheduled' = [])
      ∧ (listener = false → cs ++ notified self' status err = []))
    as Hadd.
  { intros self' cs status err direct scheduled Hu -> Hd Hsch Hflag Hnone.
    unfold notified. rewrite Hu. destruct listener.
    - destruct (_schedule_on_main_thread self') eqn:Hf.
      + exists direct, (scheduled ++ [mk_call true (snapshot self' status err)]).
        split_and!; [by rewrite app_assoc|done| |done|done].
        apply Forall_app. by split; [|repeat constructor].
      + rewrite Hflag by done.
        exists (direct ++ [mk_call false (snapshot self' status err)]), [].
        split_and!; [by rewrite !app_nil_r| |done|done|done].
        apply Forall_app. by split; [|repeat constructor].
    - exists direct, scheduled. rewrite app_nil_r. by split_and!. }
  intros tr s e s' _ (Hu & direct & scheduled & Hc & Hd & Hsch & Hflag & Hnone)
    Hstep.
  destruct (step_cases _ _ _ _ Hstep)
    as [[-> ->]|[(i & r & n & -> & Hi & ->)|[-> ->]]];
    unfold fetcher in *; cbn [world].
  - assert (on_update (self_ (started clock (world s))) = listener
            ∧ _schedule_on_main_thread (self_ (started clock (world s)))
              = _schedule_on_main_thread (self_ (world s))) as [Hu' Hf'].
    { rewrite started_self. by destruct (world s) as [[] cs t]. }
    split; [done|].
    destruct (started_calls clock (world s)) as (status & -> & _).
    apply (Hadd _ _ _ _ direct scheduled); try done. by rewrite Hf'.
  - destruct (do_fetch_try_shape clock n r (world s))
      as (self' & status & err & k & -> & _ & _ & Hu' & Hf' & _).
    cbn [snd self_ calls]. split; [congruence|].
    apply (Hadd _ _ _ _ direct scheduled); try done; [congruence|].
    by rewrite Hf'.
  - destruct (world s) as [[] cs t]. cbn in *. split; [done|].
    exists direct, scheduled. by split_and!.
Qed.

Lemma direct_calls_precede_scheduled_witness :
  ∃ s,
    run sample_clock (initial true) sample_trace = Some s
    ∧ ∃ direct scheduled,
        calls (world s) = direct ++ scheduled
        ∧ Forall (λ c, via_scheduler c = false) direct
        ∧ Forall (λ c, via_scheduler c = true) scheduled
        ∧ (_schedule_on_main_thread (fetcher s) = false → scheduled = [])
        ∧ (true = false → calls (world s) = []).
Proof.
  eexists. split; [vm_compute; reflexivity|].
  apply (direct_calls_precede_scheduled sample_clock true sample_trace).
  vm_compute. reflexivity.
Defined.




(** X9. [is_fetching] only remembers the latest start or finish: in a
    reachable state it is true exactly when the most recent of those
    events is a start.  So when fetches overlap it is false as soon as
    one of them finishes, though others are still waiting. *)
Theorem is_fetching_tracks_latest_event
  (clock : nat → datetime) (listener : bool) (tr : list event) (s : System) :
  run clock (initial listener) tr = Some s →
  is_fetching (fetcher s) = last_is_start tr.
Proof.
  revert tr s. apply run_ind; cbv beta; [done|].
  intros tr s e s' _ IH Hstep. rewrite last_is_start_snoc.
  destruct (step_cases _ _ _ _ Hstep)
    as [[-> ->]|[(i & r & n & -> & Hi & ->)|[-> ->]]];
    unfold fetcher in *; cbn [world is_start is_finish orb].
  - rewrite started_self. by destruct (world s) as [[] cs t].
  - destruct (do_fetch_try_shape clock n r (world s))
      as (self' & status & err & k & -> & Hf & _).
    exact Hf.
  - rewrite <-IH. by destruct (world s) as [[] cs t].
Qed.

Lemma is_fetching_tracks_latest_event_witness :
  ∃ s,
    run sample_clock (initial true)
      [Start; Start; Finish 0 (Completed scenario_A)] = Some s
    ∧ in_flight s = [2]
    ∧ is_fetching (fetcher s)
      = last_is_start [Start; Start; Finish 0 (Completed scenario_A)].
Proof.
  eexists. split; [vm_compute; reflexivity|].
  split; [vm_compute; reflexivity|].
  apply (is_fetching_tracks_latest_event sample_clock true).
  vm_compute. reflexivity.
Defined.

(** X10. Whatever has happened, cached data always holds both mandatory
    fields with a value other than ["??"]; so the percentages
    [get_display_values] derives from the fetcher's data are never the
    ["??"] default: they are "--" while there is no data, and the
    fetched values afterwards. *)
Theorem cached_data_is_always_valid
  (clock : nat → datetime) (listener : bool) (tr : list event) (s : System) :
  run clock (initial listener) tr = Some s →
  (∀ data, last_good_data (fetcher s) = Some data →
     mandatory_fields_known data
     ∧ data !! "SESSION_REMAINING"
       = Some (session_remaining (get_display_values (Some data)))
     ∧ data !! "WEEKLY_REMAINING"
       = Some (weekly_remaining (get_display_values (Some data))))
  ∧ (last_good_data (fetcher s) = None →
     session_remaining (get_display_values (last_good_data (fetcher s)))
     = "--")
  ∧ session_remaining (get_display_values (last_good_data (fetcher s)))
    ≠ "??"
  ∧ weekly_remaining (get_display_values (last_good_data (fetcher s)))
    ≠ "??".
Proof.
  intros Hrun.
  assert (∀ data, last_good_data (fetcher s) = Some data →
                  mandatory_fields_known data) as Hvalid.
  { revert tr s Hrun.
    apply (run_ind clock listener
             (λ _ s, ∀ data, last_good_data (fetcher s) = Some data →
                             mandatory_fields_known data)); [done|].
    intros tr s e s' _ IH Hstep.
    destruct (step_cases _ _ _ _ Hstep)
      as [[-> ->]|[(i & r & n & -> & Hi & ->)|[-> ->]]];
      unfold fetcher in *; cbn [world].
    - rewrite started_self. by destruct (world s) as [[] cs t].
    - destruct (do_fetch_try_cases clock n r (world s))
        as [(p & d & _ & _ & _ & Hv & _ & _ & ->)|(msg & _ & _ & ->)];
        destruct (world s) as [[] cs t]; cbn in *; [|done].
      intros data [= <-]. by apply has_valid_data_spec.
    - by destruct (world s) as [[] cs t]. }
  assert (∀ data, mandatory_fields_known data →
    data !! "SESSION_REMAINING"
    = Some (session_remaining (get_display_values (Some data)))
    ∧ data !! "WEEKLY_REMAINING"
      = Some (weekly_remaining (get_display_values (Some data)))) as Hshow.
  { intros data Hk. pose proof (known_fields_nonempty _ Hk) as Hne.
    destruct Hk as (sv & wv & Hs & _ & Hw & _).
    unfold get_display_values. rewrite (falsy_nonempty _ Hne).
    cbn [session_remaining weekly_remaining]. unfold dict_get.
    by rewrite Hs, Hw. }
  split; [|split].
  - intros data Hd. split; [by apply Hvalid|]. by apply Hshow, Hvalid.
  - by intros ->.
  - destruct (last_good_data (fetcher s)) as [data|]; [|by split].
    destruct (Hvalid data eq_refl) as (sv & wv & Hs & Hsv & Hw & Hwv).
    destruct (Hshow data) as [Hs' Hw']; [by exists sv, wv|].
    split; congruence.
Qed.

Lemma cached_data_is_always_valid_witness :
  ∃ s,
    run sample_clock (initial true) sample_trace = Some s
    ∧ session_remaining (get_display_values (last_good_data (fetcher s)))
      = "42".
Proof.
  eexists. split; [vm_compute; reflexivity|].
  match goal with
  | |- session_remaining (get_display_values (last_good_data (fetcher ?s)))
       = _ =>
      destruct (proj1 (cached_data_is_always_valid sample_clock true
                         sample_trace s ltac:(vm_compute; reflexivity))
                  scenario_A_data ltac:(vm_compute; reflexivity))
        as (_ & Hs & _)
  end.
  vm_compute in Hs. vm_compute. congruence.
Defined.

(** * Further properties of the parser *)

Lemma cut_spec sep s k v :
  str_cut sep s = Some (k, v) →
  s = k +:+ String sep v ∧ str_contains sep k = false.
Proof.
  revert k. induction s as [|c s IH]; intros k; [done|]. simpl.
  destruct (Ascii.eqb_spec c sep) as [->|Hne].
  - by intros [= <- <-].
  - destruct (str_cut sep s) as [[k' v']|]; [|done]. intros [= <- <-].
    destruct (IH k' eq_refl) as [-> Hk]. split; [done|]. simpl.
    by destruct (Ascii.eqb_spec c sep).
Qed.

Lemma contains_strip c s :
  str_contains c s = false → str_contains c (str_strip s) = false.
Proof.
  destruct (proj1 (strip_spec s)) as (w1 & w2 & _ & _ & Hs).
  rewrite Hs at 1. rewrite !str_contains_app.
  intros [_ [? _]%orb_false_iff]%orb_false_iff. done.
Qed.

Lemma lstrip_hash s :
  str_startswith hash (str_lstrip s) = false → str_startswith hash s = false.
Proof.
  destruct s as [|c s]; [done|]. simpl.
  destruct (isspace c) eqn:Hc; [|done]. intros _.
  destruct (Ascii.eqb_spec c hash) as [->|]; [done|done].
Qed.

Lemma spec_entries_lstrip s :
  str_startswith hash (str_lstrip s) = false →
  spec_entries (str_lstrip s) = spec_entries s.
Proof.
  intros Hs. destruct (lstrip_split s) as (w1 & Hw1 & Hs1).
  by rewrite <-(spec_entries_app_space_l w1 _ Hw1 Hs), <-Hs1.
Qed.

(** The trailing whitespace of the whole text never matters. *)
Lemma parse_data_lstrip output :
  parse_data output = Ok (spec_parse (str_lstrip output)).
Proof.
  rewrite parse_data_eq. unfold spec_parse, str_strip.
  destruct (rstrip_split (str_lstrip output)) as (w2 & Hw2 & Hs2).
  by rewrite <-(spec_entries_app_space_r _ w2 Hw2), <-Hs2.
Qed.

Lemma parse_data_all_space w : all_space w = true → parse_data w = Ok ∅.
Proof. intros Hw. by rewrite parse_data_lstrip, (lstrip_all_space _ Hw). Qed.

Lemma glue_newline la lb :
  la ≠ [] → glue la (EmptyString :: lb) = la ++ lb.
Proof.
  induction la as [|x la IH]; [done|]. intros _.
  destruct la as [|y la].
  - simpl. by rewrite str_app_empty_r.
  - rewrite glue_cons by done. simpl. f_equal. by apply IH.
Qed.

Lemma entries_of_app la lb :
  entries_of (la ++ lb) = entries_of la ++ entries_of lb.
Proof. unfold entries_of. by rewrite filter_app, fmap_app. Qed.

(** The entries of a text followed by one more line. *)
Lemma spec_entries_snoc s line :
  str_contains nl line = false →
  spec_entries (s +:+ String nl line)
  = spec_entries s
    ++ (if spec_keep line then [spec_entry line] else []).
Proof.
  intros Hline. unfold spec_entries.
  fold (entries_of (str_split nl (s +:+ String nl line))).
  fold (entries_of (str_split nl s)).
  rewrite split_app, split_cons, Ascii.eqb_refl, (split_absent _ _ Hline).
  rewrite glue_newline by apply split_nonempty.
  by rewrite entries_of_app, entries_of_cons, app_nil_r.
Qed.

Lemma spec_entries_one line :
  str_contains nl line = false →
  spec_entries line = if spec_keep line then [spec_entry line] else [].
Proof.
  intros Hline. unfold spec_entries. rewrite (split_absent _ _ Hline).
  fold (entries_of [line]). by rewrite entries_of_cons, app_nil_r.
Qed.

Lemma contains_lstrip c s :
  str_contains c s = false → str_contains c (str_lstrip s) = false.
Proof.
  destruct (lstrip_split s) as (w & _ & Hs). rewrite Hs at 1.
  rewrite str_contains_app. by intros [_ ?]%orb_false_iff.
Qed.

(** Parsing a text followed by one more line: the line is read on its
    own when the text before it has something visible; otherwise it is
    the first line, and is read with its leading whitespace removed. *)
Lemma parse_data_snoc s line :
  str_contains nl line = false →
  parse_data (s +:+ String nl line)
  = if all_space s
    then Ok (list_to_map
               (if spec_keep (str_lstrip line)
                then [spec_entry (str_lstrip line)] else []))
    else Ok (list_to_map
               ((if spec_keep line then [spec_entry line] else [])
                ++ reverse (spec_entries (str_lstrip s)))).
Proof.
  intros Hline. rewrite parse_data_lstrip. unfold spec_parse.
  destruct (all_space s) eqn:Hs.
  - rewrite (lstrip_app_space _ _ Hs). change (str_lstrip (String nl line))
      with (str_lstrip line).
    rewrite (spec_entries_one _ (contains_lstrip _ _ Hline)).
    by destruct (spec_keep (str_lstrip line)).
  - rewrite (lstrip_app _ _ Hs), (spec_entries_snoc _ _ Hline).
    rewrite reverse_app. by destruct (spec_keep line).
Qed.

Lemma entry_line_keep k v :
  str_startswith hash (str_lstrip k) = false →
  spec_keep (k +:+ String eq_sign v) = true.
Proof.
  intros Hk. apply (serialize_entry_keep k v). by apply lstrip_hash.
Qed.

Lemma entry_line_lstrip_hash k v :
  str_startswith hash (str_lstrip k) = false →
  str_startswith hash (str_lstrip (k +:+ String eq_sign v)) = false.
Proof.
  intros Hk. destruct (all_space k) eqn:Hs.
  - by rewrite (lstrip_app_space _ _ Hs).
  - rewrite (lstrip_app _ _ Hs). pose proof (lstrip_head k) as Hh.
    destruct (str_lstrip k) as [|c t]; [congruence|].
    by rewrite str_app_cons.
Qed.

(** X12. Whitespace (blank lines included) before and after the whole
    output makes no difference to what is parsed. *)
Theorem surrounding_whitespace_is_ignored (w1 s w2 : string) :
  all_space w1 = true → all_space w2 = true →
  parse_data (w1 +:+ s +:+ w2) = parse_data s.
Proof.
  intros Hw1 Hw2. rewrite !parse_data_eq.
  by rewrite (strip_app_space_l _ _ Hw1), (strip_app_space_r _ _ Hw2).
Qed.

Lemma surrounding_whitespace_is_ignored_witness :
  parse_data (NL +:+ stdout scenario_A +:+ (" " +:+ NL +:+ NL))
  = parse_data (stdout scenario_A).
Proof.
  apply surrounding_whitespace_is_ignored; vm_compute; reflexivity.
Defined.

(** X13. Appending one more line [KEY=value] to any output sets that
    key, trimmed, to that value, trimmed, and leaves every other parsed
    key as it was, whether or not the key was there before.  This needs
    a key without [=] whose first visible character is not [#], and no
    newline inside the line. *)
Theorem appended_entry_is_inserted
  (s k v : string) (m : gmap string string) :
  parse_data s = Ok m →
  str_contains eq_sign k = false →
  str_contains nl k = false →
  str_contains nl v = false →
  str_startswith hash (str_lstrip k) = false →
  parse_data (s +:+ String nl (k +:+ String eq_sign v))
  = Ok (<[str_strip k := str_strip v]> m).
Proof.
  intros Hm Heq Hk Hv Hhash.
  assert (str_contains nl (k +:+ String eq_sign v) = false) as Hline.
  { rewrite str_contains_app, Hk. simpl. by rewrite Hv. }
  assert (spec_entry (k +:+ String eq_sign v) = (str_strip k, str_strip v))
    as Hentry.
  { unfold spec_entry. by rewrite (cut_entry _ _ _ Heq). }
  pose proof (entry_line_keep k v Hhash) as Hkeep.
  rewrite (parse_data_snoc _ _ Hline). destruct (all_space s) eqn:Hs.
  - rewrite (parse_data_all_space _ Hs) in Hm. injection Hm as <-.
    destruct (lstrip_split (k +:+ String eq_sign v)) as (w & Hw & Hl).
    pose proof (entry_line_lstrip_hash k v Hhash) as Hh.
    rewrite <-(keep_app_space_l w _ Hw Hh), <-Hl, Hkeep.
    rewrite <-(entry_app_space_l w _ Hw); [by rewrite <-Hl, Hentry|].
    by rewrite <-(keep_app_space_l w _ Hw Hh), <-Hl.
  - rewrite parse_data_lstrip in Hm. injection Hm as <-.
    by rewrite Hkeep, Hentry.
Qed.

Lemma appended_entry_is_inserted_witness :
  parse_data (stdout scenario_B
              +:+ String nl (" SESSION_REMAINING " +:+ String eq_sign " 7 "))
  = Ok (<["SESSION_REMAINING" := "7"]> scenario_B_data).
Proof.
  apply (appended_entry_is_inserted (stdout scenario_B)
           " SESSION_REMAINING " " 7 " scenario_B_data);
    vm_compute; reflexivity.
Defined.

(** X14. Appending a line that starts with [#], or that has no [=],
    never changes what is parsed. *)
Theorem appended_comment_is_ignored (s line : string) :
  str_contains nl line = false →
  str_startswith hash line = true ∨ str_contains eq_sign line = false →
  parse_data (s +:+ String nl line) = parse_data s.
Proof.
  intros Hline Hskip.
  assert (spec_keep line = false ∧ spec_keep (str_lstrip line) = false)
    as [Hk Hk'].
  { rewrite !spec_keep_alt. destruct Hskip as [Hh|Hc].
    - rewrite Hh, andb_false_r. destruct line as [|c t]; [done|].
      simpl in Hh. apply Ascii.eqb_eq in Hh as ->. simpl.
      by rewrite andb_false_r.
    - by rewrite Hc, (contains_lstrip _ _ Hc). }
  rewrite (parse_data_snoc _ _ Hline), Hk, Hk'.
  destruct (all_space s) eqn:Hs.
  - by rewrite (parse_data_all_space _ Hs).
  - by rewrite parse_data_lstrip.
Qed.

Lemma appended_comment_is_ignored_witness :
  parse_data (stdout scenario_A +:+ String nl "# WEEKLY_REMAINING=0")
  = parse_data (stdout scenario_A).
Proof.
  apply appended_comment_is_ignored; [vm_compute; reflexivity|].
  left. vm_compute. reflexivity.
Defined.

Lemma spec_entries_plain text k v :
  (k, v) ∈ spec_entries text →
  str_contains eq_sign k = false ∧ str_contains nl k = false
  ∧ str_strip k = k
  ∧ str_contains nl v = false ∧ str_strip v = v.
Proof.
  unfold spec_entries. intros (line & Hkv & Hin)%list_elem_of_fmap.
  apply list_elem_of_filter in Hin as [Hkeep Hin].
  pose proof (split_lines_free nl text) as Hfree.
  rewrite Forall_forall in Hfree. specialize (Hfree line Hin).
  rewrite spec_keep_alt in Hkeep. apply andb_true_iff in Hkeep as [Hc _].
  destruct (cut_some _ _ Hc) as [[k0 v0] Hcut].
  unfold spec_entry in Hkv. rewrite Hcut in Hkv. injection Hkv as -> ->.
  destruct (cut_spec _ _ _ _ Hcut) as [-> Hk0].
  rewrite str_contains_app in Hfree.
  apply orb_false_iff in Hfree as [Hnk Hnv]. simpl in Hnv.
  split_and!; try by apply contains_strip.
  - apply (proj2 (strip_spec k0)).
  - apply (proj2 (strip_spec v0)).
Qed.

Lemma parsed_entry_plain output data k v :
  parse_data output = Ok data → data !! k = Some v →
  str_contains eq_sign k = false ∧ str_contains nl k = false
  ∧ str_strip k = k
  ∧ str_contains nl v = false ∧ str_strip v = v.
Proof.
  rewrite parse_data_eq. intros [= <-] Hkv.
  apply elem_of_list_to_map_2 in Hkv. rewrite elem_of_reverse in Hkv.
  by apply (spec_entries_plain (str_strip output)).
Qed.

(** X11. Whatever the output, every parsed key is free of [=] and of
    newlines and has no whitespace at either end, and every parsed value
    is free of newlines and has no whitespace at either end. *)
Theorem parsed_entries_are_trimmed
  (output : string) (data : gmap string string) (k v : string) :
  parse_data output = Ok data →
  data !! k = Some v →
  str_contains eq_sign k = false ∧ str_contains nl k = false
  ∧ str_strip k = k
  ∧ str_contains nl v = false ∧ str_strip v = v.
Proof. apply parsed_entry_plain. Qed.

Lemma parsed_entries_are_trimmed_witness :
  str_contains eq_sign "PLAN" = false ∧ str_contains nl "PLAN" = false
  ∧ str_strip "PLAN" = "PLAN"
  ∧ str_contains nl "a = b" = false ∧ str_strip "a = b" = "a = b".
Proof.
  apply (parsed_entries_are_trimmed
           ("  PLAN  " +:+ String eq_sign ("  a = b " +:+ NL))
           (<["PLAN" := "a = b"]> ∅)).
  - vm_compute. reflexivity.
  - vm_compute. reflexivity.
Defined.

Lemma glue_length la lb :
  la ≠ [] → lb ≠ [] →
  length (glue la lb) = (length la + length lb - 1)%nat.
Proof.
  intros Hla Hlb. induction la as [|x la IH]; [done|].
  destruct la as [|y la].
  - destruct lb; [done|]. simpl. lia.
  - rewrite glue_cons by done. cbn [length]. rewrite IH by done.
    cbn [length]. destruct lb; [done|]. cbn [length]. lia.
Qed.

Lemma split_app_length sep a b :
  length (str_split sep (a +:+ b))
  = (length (str_split sep a) + length (str_split sep b) - 1)%nat.
Proof. rewrite split_app. apply glue_length; apply split_nonempty. Qed.

Lemma split_strip_length s :
  (length (str_split nl (str_strip s)) ≤ length (str_split nl s))%nat.
Proof.
  destruct (proj1 (strip_spec s)) as (w1 & w2 & _ & _ & Hs).
  rewrite Hs at 2. rewrite !split_app_length.
  pose proof (split_nonempty nl w1). pose proof (split_nonempty nl w2).
  destruct (str_split nl w1), (str_split nl w2); [done..|].
  cbn [length]. lia.
Qed.

Lemma size_list_to_map_le (l : list (string * string)) :
  (size (list_to_map l : gmap string string) ≤ length l)%nat.
Proof.
  induction l as [|[k v] l IH]; [done|].
  rewrite list_to_map_cons, map_size_insert. cbn [length].
  destruct ((list_to_map l : gmap string string) !! k); simpl; lia.
Qed.

(** X15. The parser yields at most one key per line of the output: the
    number of parsed keys never exceeds the number of lines. *)
Theorem parsed_keys_bounded_by_lines
  (output : string) (data : gmap string string) :
  parse_data output = Ok data →
  (size data ≤ length (str_split nl output))%nat.
Proof.
  rewrite parse_data_eq. intros [= <-]. unfold spec_parse, spec_entries.
  etrans; [apply size_list_to_map_le|].
  rewrite length_reverse, length_fmap.
  etrans; [apply length_filter|]. apply split_strip_length.
Qed.

Lemma parsed_keys_bounded_by_lines_witness :
  (size scenario_B_data ≤ length (str_split nl (stdout scenario_B)))%nat.
Proof.
  apply parsed_keys_bounded_by_lines. vm_compute. reflexivity.
Defined.

(** X16. What the parser returns can be written out and read back
    unchanged: if no parsed key starts with [#], serialising the parsed
    mapping as [KEY=value] lines (in any order, with or without a final
    newline) and parsing that text gives the same mapping. *)
Theorem parsed_mapping_reparses
  (output : string) (m : gmap string string)
  (entries : list (string * string)) (trailing : bool) :
  parse_data output = Ok m →
  (∀ k, is_Some (m !! k) → str_startswith hash k = false) →
  entries ≡ₚ map_to_list m →
  parse_data (serialize trailing entries) = Ok m.
Proof.
  intros Hm Hhash Hperm. rewrite parse_serialize.
  - f_equal. rewrite <-(list_to_map_to_list m).
    apply list_to_map_proper.
    + rewrite reverse_Permutation, Hperm. apply NoDup_fst_map_to_list.
    + by rewrite reverse_Permutation.
  - apply Forall_forall. intros [k v] Hin.
    rewrite Hperm in Hin. apply elem_of_map_to_list in Hin.
    destruct (parsed_entry_plain _ _ _ _ Hm Hin) as (? & ? & ? & ? & ?).
    unfold plain_entry. cbn [fst snd]. split_and!; try done.
    apply Hhash. by eexists.
Qed.

Lemma parsed_mapping_reparses_witness :
  parse_data
    (serialize false [("WEEKLY_REMAINING", "50"); ("SESSION_REMAINING", "??")])
  = Ok scenario_B_data.
Proof.
  apply (parsed_mapping_reparses (stdout scenario_B)).
  - vm_compute. reflexivity.
  - intros k [v Hkv].
    destruct (decide (k = "WEEKLY_REMAINING")) as [->|Hk1]; [done|].
    destruct (decide (k = "SESSION_REMAINING")) as [->|Hk2]; [done|].
    unfold scenario_B_data in Hkv.
    rewrite !lookup_insert_ne in Hkv by done. done.
  - vm_compute. reflexivity.
Defined.

(** * The Windows tray *)




(** The texts depend on the display values only through what
    [same_shown] keeps. *)
Lemma texts_same_shown percent self self' :
  Tray.is_stale self = Tray.is_stale self' →
  Tray.status self = Tray.status self' →
  falsy (Tray.data self) = falsy (Tray.data self') →
  same_shown (get_display_values (Tray.data self))
    (get_display_values (Tray.data self')) →
  Tray.get_account_text self = Tray.get_account_text self'
  ∧ Tray.get_session_text self = Tray.get_session_text self'
  ∧ Tray.get_time_remaining_text percent self
    = Tray.get_time_remaining_text percent self'
  ∧ Tray.get_session_resets_text self = Tray.get_session_resets_text self'
  ∧ Tray.get_weekly_text self = Tray.get_weekly_text self'
  ∧ Tray.get_weekly_resets_text self = Tray.get_weekly_resets_text self'
  ∧ Tray.icon_title (Tray._update_tooltip self)
    = Tray.icon_title (Tray._update_tooltip self').
Proof.
  intros Hst Hstatus Hf
    (Hs & Hw & Ht & Hc & Hsr & Hwr & He & Ha & Hp & Hx).
  unfold Tray.get_account_text, Tray.get_session_text,
    Tray.get_time_remaining_text, Tray.get_session_resets_text,
    Tray.get_weekly_text, Tray.get_weekly_resets_text, Tray._update_tooltip,
    Tray._get_display_values.
  rewrite <-Hst, <-Hstatus, <-Hf, <-Hs, <-Hw, <-He.
  cbv zeta.
  destruct Ht as [Ht|[Ht Ht']], Hc as [Hc|[Hc Hc']], Hsr as [Hsr|[Hsr Hsr']],
    Hwr as [Hwr|[Hwr Hwr']], Ha as [Ha|[Ha Ha']], Hp as [Hp|[Hp Hp']],
    Hx as [Hx|[Hx Hx']];
    repeat match goal with
           | H : truthy _ = false |- _ => rewrite ?H; clear H
           | H : @eq (option string) _ _ |- _ => rewrite <-?H; clear H
           end;
    split_and!; try reflexivity;
    repeat match goal with
           | |- context [if ?b then _ else _] => destruct b
           end; reflexivity.
Qed.

Lemma display_delete_same_shown (d : gmap string string) key :
  key ∈ optional_keys →
  d !! key = Some EmptyString →
  delete key d ≠ ∅ →
  same_shown (get_display_values (Some d))
    (get_display_values (Some (delete key d))).
Proof.
  intros Hkey Hd Hne.
  assert (d ≠ ∅) as Hne' by (intros ->; by rewrite lookup_empty in Hd).
  unfold get_display_values.
  rewrite (falsy_nonempty _ Hne), (falsy_nonempty _ Hne').
  unfold same_shown, same_shown_str, dict_get, optional_keys in *.
  cbn [session_remaining weekly_remaining time_remaining_str confidence
       session_resets weekly_resets exhausts_before_reset account_email
       plan_type extra_pct].
  repeat (apply elem_of_cons in Hkey as [->|Hkey]);
    try (by apply elem_of_nil in Hkey);
    rewrite lookup_delete_eq, !lookup_delete_ne by done;
    rewrite ?Hd; split_and!; first [done|by left|by right].
Qed.

(** X18. An optional key whose value is empty is shown exactly like a
    missing key: removing such a key from the tray's data changes none
    of the menu texts and not the tooltip (an empty ACCOUNT_EMAIL hides
    the plan too, an empty TIME_REMAINING_STR hides the confidence and
    the exhaustion warning). *)
Theorem empty_optional_value_shown_as_missing
  (percent : string → option Z) (self : Tray.ClaudeUsageTray)
  (d : gmap string string) (key : string) :
  key ∈ optional_keys →
  Tray.data self = Some d →
  d !! key = Some EmptyString →
  delete key d ≠ ∅ →
  let self' := tray_with_data (Some (delete key d)) self in
  Tray.get_account_text self = Tray.get_account_text self'
  ∧ Tray.get_session_text self = Tray.get_session_text self'
  ∧ Tray.get_time_remaining_text percent self
    = Tray.get_time_remaining_text percent self'
  ∧ Tray.get_session_resets_text self = Tray.get_session_resets_text self'
  ∧ Tray.get_weekly_text self = Tray.get_weekly_text self'
  ∧ Tray.get_weekly_resets_text self = Tray.get_weekly_resets_text self'
  ∧ Tray.icon_title (Tray._update_tooltip self)
    = Tray.icon_title (Tray._update_tooltip self').
Proof.
  intros Hkey Hdata Hd Hne. cbv zeta.
  assert (d ≠ ∅) as Hne' by (intros ->; by rewrite lookup_empty in Hd).
  apply texts_same_shown; cbn [tray_with_data Tray.is_stale Tray.status
                                 Tray.data]; [done|done| |].
  - by rewrite Hdata, (falsy_nonempty _ Hne), (falsy_nonempty _ Hne').
  - rewrite Hdata. by apply display_delete_same_shown.
Qed.

Lemma empty_optional_value_shown_as_missing_witness :
  let d : gmap string string :=
    <["PLAN_TYPE" := "max"]>
      (<["ACCOUNT_EMAIL" := EmptyString]> scenario_A_data) in
  Tray.get_account_text (tray_with_data (Some d) Tray.__init__)
  = Tray.get_account_text
      (tray_with_data (Some (delete "ACCOUNT_EMAIL" d))
         (tray_with_data (Some d) Tray.__init__)).
Proof.
  intros d.
  apply (empty_optional_value_shown_as_missing sample_percent
           (tray_with_data (Some d) Tray.__init__) d "ACCOUNT_EMAIL").
  - vm_compute. do 5 right. by left.
  - reflexivity.
  - vm_compute. reflexivity.
  - vm_compute. discriminate.
Defined.

Lemma after_calls_notified self' status err cs t0 :
  on_update self' = true →
  or_else err (last_error self') = last_error self' →
  tray_mirrors (Tray.after_calls (cs ++ notified self' status err) t0) self'.
Proof.
  intros Hu Hor. unfold notified, Tray.after_calls. rewrite Hu, foldl_snoc.
  unfold Tray._on_fetcher_update, Tray._update_tooltip, tray_mirrors.
  cbn [call_state snapshot snap_data snap_is_stale snap_error
       snap_last_successful_fetch Tray.data].
  rewrite Hor.
  repeat match goal with
         | |- context [if ?b then _ else _] => destruct b
         end; done.
Qed.

Lemma on_update_constant clock listener tr s :
  run clock (initial listener) tr = Some s → on_update (fetcher s) = listener.
Proof.
  revert tr s. apply run_ind; cbv beta; [done|].
  intros tr s e s' _ IH Hstep.
  destruct (step_cases _ _ _ _ Hstep)
    as [[-> ->]|[(i & r & n & -> & Hi & ->)|[-> ->]]];
    unfold fetcher in *; cbn [world].
  - rewrite started_self. by destruct (world s) as [[] cs t].
  - destruct (do_fetch_try_shape clock n r (world s))
      as (self' & status & err & k & -> & _ & _ & Hu & _).
    cbn [snd self_]. congruence.
  - by destruct (world s) as [[] cs t].
Qed.

(** X19. A tray that starts from its initial state and receives every
    call of the fetcher, in order, always shows the fetcher's current
    state: in every reachable state its data, staleness, error and time
    of last success equal the fetcher's. *)
Theorem tray_follows_fetcher
  (clock : nat → datetime) (tr : list event) (s : System) :
  run clock (initial true) tr = Some s →
  tray_mirrors (Tray.after_calls (calls (world s)) Tray.__init__)
    (fetcher s).
Proof.
  revert tr s. apply run_ind; cbv beta; [done|].
  intros tr s e s' Hrun IH Hstep.
  pose proof (on_update_constant _ _ _ _ Hrun) as Hu.
  destruct (step_cases _ _ _ _ Hstep)
    as [[-> ->]|[(i & r & n & -> & Hi & ->)|[-> ->]]];
    unfold fetcher in *; cbn [world].
  - destruct (started_calls clock (world s)) as (status & -> & _).
    apply after_calls_notified; [|done].
    rewrite started_self. by destruct (world s) as [[] cs t].
  - destruct (do_fetch_try_shape clock n r (world s))
      as (self' & status & err & k & -> & _ & _ & Hu' & _ & Hor & _).
    cbn [snd self_ calls]. apply after_calls_notified; congruence.
  - by destruct (world s) as [[] cs t].
Qed.

Lemma tray_follows_fetcher_witness :
  ∃ s,
    run sample_clock (initial true) sample_trace = Some s
    ∧ tray_mirrors (Tray.after_calls (calls (world s)) Tray.__init__)
        (fetcher s).
Proof.
  eexists. split; [vm_compute; reflexivity|].
  apply (tray_follows_fetcher sample_clock sample_trace).
  vm_compute. reflexivity.
Defined.

Lemma do_fetch_last_call clock r w :
  on_update (self_ w) = true →
  ∃ cs status err,
    calls (_do_fetch clock r w).2
    = cs ++ notified (self_ (_do_fetch clock r w).2) status err
    ∧ on_update (self_ (_do_fetch clock r w).2) = true
    ∧ or_else err (last_error (self_ (_do_fetch clock r w).2))
      = last_error (self_ (_do_fetch clock r w).2).
Proof.
  intros Hu. rewrite do_fetch_eq.
  destruct (do_fetch_try_shape clock (fetch_count (self_ w) + 1) r
              (started clock w))
    as (self' & status & err & k & -> & _ & _ & Hu' & _ & Hor & _).
  exists (calls (started clock w)), status, err. cbn [snd calls self_].
  split_and!; [done| |done].
  rewrite Hu', started_self. by destruct w as [[] cs t].
Qed.

Lemma do_fetches_last_call clock rs w :
  rs ≠ [] → on_update (self_ w) = true →
  ∃ cs status err,
    calls (do_fetches clock rs w)
    = cs ++ notified (self_ (do_fetches clock rs w)) status err
    ∧ on_update (self_ (do_fetches clock rs w)) = true
    ∧ or_else err (last_error (self_ (do_fetches clock rs w)))
      = last_error (self_ (do_fetches clock rs w)).
Proof.
  revert w. induction rs as [|r rs IH]; intros w; [done|]. intros _ Hu.
  cbn [do_fetches].
  destruct (do_fetch_last_call clock r w Hu) as (cs & status & err & Hc & Hu' & Hor).
  destruct rs as [|r' rs]; [by exists cs, status, err|].
  by apply IH.
Qed.

Lemma success_then_failures clock w p data rs :
  returncode p = 0 →
  parse_data (stdout p) = Ok data →
  has_valid_data data = true →
  rs ≠ [] →
  Forall (λ r, attempt_succeeds r = false) rs →
  let wf := do_fetches clock (Completed p :: rs) w in
  last_good_data (self_ wf) = Some data
  ∧ is_stale (self_ wf) = true
  ∧ last_successful_fetch (self_ wf) = Some (clock (S (ticks w))).
Proof.
  intros Hrc Hp Hv Hne Hall. cbn [do_fetches]. cbv zeta.
  destruct (do_fetches_failed_frame clock rs
              (_do_fetch clock (Completed p) w).2 Hall) as (-> & -> & Hs).
  rewrite (Hs Hne), do_fetch_eq, (do_fetch_try_parse _ _ _ _ Hrc).
  rewrite (parse_output_valid _ _ _ data _ Hp Hv), started_eq.
  by destruct w as [[] cs t].
Qed.

(** X20. Stale data stays on display.  Let a fetch store valid data and
    let any number (at least one) of failing or invalid attempts follow.
    A tray fed with the fetcher's calls then still holds that data; its
    session line shows the stored percentage followed by " (stale)", its
    "Updated" line shows the time of the successful fetch followed by
    " (stale)", and its tooltip carries the "[ZZZ]" marker. *)
Theorem stale_data_stays_on_display
  (clock : nat → datetime) (w : World) (p : CompletedProcess)
  (data : gmap string string) (rs : list run_outcome)
  (tray0 : Tray.ClaudeUsageTray) (sv : string) :
  on_update (self_ w) = true →
  returncode p = 0 →
  parse_data (stdout p) = Ok data →
  mandatory_fields_known data →
  data !! "SESSION_REMAINING" = Some sv →
  rs ≠ [] →
  Forall (λ r, attempt_succeeds r = false) rs →
  let tray :=
    Tray.after_calls (calls (do_fetches clock (Completed p :: rs) w)) tray0 in
  Tray.data tray = Some data
  ∧ Tray.get_session_text tray = "Session: " +:+ sv +:+ "% remaining (stale)"
  ∧ Tray.get_last_updated_text tray
    = "Updated: " +:+ strftime_HMS (clock (S (ticks w))) +:+ " (stale)"
  ∧ ∃ warning rest,
      Tray.icon_title tray = warning +:+ "[ZZZ]Claude: " +:+ rest
      ∧ (warning = EmptyString ∨ warning = "[!] ").
Proof.
  intros Hu Hrc Hp Hk Hsv Hne Hall. cbv zeta.
  pose proof (known_fields_nonempty _ Hk) as Hdne.
  apply has_valid_data_spec in Hk.
  destruct (success_then_failures clock w p data rs Hrc Hp Hk Hne Hall)
    as (Hd & Hs & Ht).
  destruct (do_fetches_last_call clock (Completed p :: rs) w)
    as (cs & status & err & Hc & Hu' & _); [done|done|].
  rewrite Hc. clear Hc. revert Hd Hs Ht Hu'.
  generalize (self_ (do_fetches clock (Completed p :: rs) w)).
  intros final Hd Hs Ht Hu'.
  unfold notified, Tray.after_calls. rewrite Hu', foldl_snoc.
  unfold Tray._on_fetcher_update, Tray._update_tooltip,
    Tray.get_session_text, Tray.get_last_updated_text,
    Tray._get_display_values.
  cbn [call_state snapshot snap_data snap_is_stale snap_error
       snap_last_successful_fetch snap_status Tray.data Tray.is_stale].
  rewrite Hd, Hs, Ht. unfold get_display_values.
  rewrite (falsy_nonempty _ Hdne). cbn [negb].
  cbn [exhausts_before_reset time_remaining_str session_remaining
       weekly_remaining].
  unfold dict_get. rewrite Hsv.
  destruct (is_true_str (data !! "EXHAUSTS_BEFORE_RESET")),
    (truthy (data !! "TIME_REMAINING_STR"));
    cbn [Tray.data Tray.is_stale Tray.last_successful Tray.icon_title
         Tray.set_icon_title];
    rewrite ?(falsy_nonempty _ Hdne); rewrite ?Hsv;
    (split_and!; [done|done|done|]).
  - exists "[!] ", (the_str (data !! "TIME_REMAINING_STR") +:+ " ("
                    +:+ sv +:+ "%)"). split; [reflexivity|by right].
  - exists EmptyString, ("S:" +:+ sv +:+ "% W:"
                         +:+ match data !! "WEEKLY_REMAINING" with
                             | Some v => v
                             | None => "??"
                             end +:+ "%").
    split; [reflexivity|by left].
  - exists EmptyString, (the_str (data !! "TIME_REMAINING_STR") +:+ " ("
                         +:+ sv +:+ "%)"). split; [reflexivity|by left].
  - exists EmptyString, ("S:" +:+ sv +:+ "% W:"
                         +:+ match data !! "WEEKLY_REMAINING" with
                             | Some v => v
                             | None => "??"
                             end +:+ "%").
    split; [reflexivity|by left].
Qed.

Lemma stale_data_stays_on_display_witness :
  let tray :=
    Tray.after_calls
      (calls (do_fetches sample_clock
                [Completed scenario_A; Completed scenario_C] fresh_world))
      Tray.__init__ in
  Tray.data tray = Some scenario_A_data
  ∧ Tray.get_session_text tray
    = "Session: " +:+ "42" +:+ "% remaining (stale)"
  ∧ Tray.get_last_updated_text tray
    = "Updated: " +:+ strftime_HMS (sample_clock 1) +:+ " (stale)"
  ∧ ∃ warning rest,
      Tray.icon_title tray = warning +:+ "[ZZZ]Claude: " +:+ rest
      ∧ (warning = EmptyString ∨ warning = "[!] ").
Proof.
  apply (stale_data_stays_on_display sample_clock fresh_world scenario_A
           scenario_A_data [Completed scenario_C] Tray.__init__ "42").
  - reflexivity.
  - reflexivity.
  - vm_compute. reflexivity.
  - exists "42", "88". repeat split; (vm_compute; reflexivity) || discriminate.
  - vm_compute. reflexivity.
  - discriminate.
  - repeat constructor.
Defined.
